(* ===== verification/_CoqProject ===== *)
-Q . S2P
Prelude.v
JsValue.v
Json.v
JsonParse.v
JsonPrint.v
ChatStore.v
SocketStore.v
StreamingSelector.v
EquipmentFetch.v
ChatView.v
ChatInterface.v
SessionSpec.v
ChatSocket.v
