(* ===== verification/Prelude.v ===== *)
(** * A verification development of the GroupUps chat screen

    The program is one React component, [ChatInterface]
    (src/src/components/ChatbotPage/ChatInterface.jsx).  It glues three
    asynchronous sources of truth into one view:

    - the chat store ([useChatStore], src/store/chatStore, not in this
      repository fragment): the ordered message log and the
      [streamingMessageId] marker with its setter;
    - the socket store ([useSocketStore], src/store/socketStore, not in the
      fragment) with [isConnected] and [connectionStatus], driven by the
      [useChatSocket] hook (src/hooks/useChatSocket, not in the fragment);
    - the equipment lookup, an HTTP call through [api.get] that the
      component issues itself (lines 23-36) and whose outcome it keeps in the
      React state [equipment] / [loading] (lines 18-19).

    The component runs three effects after each render (lines 23-36, 38-40,
    42-53) and renders one of three screens (lines 57-89): a redirect to
    /404, the "chat unavailable" notice, or the message list with its
    skeleton and the send form.

    ** Files, in dependency order

    - [Prelude] (this file): the [chat_scope] notations, the error monad
      on [exn + A] used for code that throws, the simulation lemma that
      lifts a per-step diagram of a step function to its runs
      ([foldl_sim]), the [chat] hint database, the
      development's Ltac, and the list/option lemmas the components share.
    - [JsValue]: the JavaScript values the component handles (primitives,
      strings as lists of UTF-16 code units), truthiness, [||], [===],
      [ToString], and the exceptions [SyntaxError] / [TypeError].
    - [Json]: the values [JSON.parse] builds, their well-formedness and
      truthiness, and the [[Get]] of a property on a parsed value, which
      throws [TypeError] on [null] and [undefined].
    - [JsonParse]: [JSON.parse] over code units (a fuel-driven
      recursive-descent parser of the JSON grammar) and the facts that
      make the fuel harmless: every parse consumes a nonempty prefix, and
      two units of fuel per code unit are enough.
    - [JsonPrint]: a serializer (the server's side of the envelope, from
      the spec) and the round trip parse (print j) = j.
    - [ChatStore]: the chat store (modelled from the spec: the store file
      is not in the fragment): messages, marker, [append], [updateLast],
      [setStreamingMessageId], and its contract as an interface, the
      classes [MessageLog] (operations) and [MessageLogLaws] (spec 4.2),
      which the store implements.
    - [SocketStore]: the socket store and the connection manager (from
      the spec): connection status, the connection the store holds and
      the transport's open connections, [connect] / [disconnect] /
      [retarget], gated [send], and the invariant that the only open
      connection is the one held.
    - [StreamingSelector]: the effect of lines 42-53, as a function from
      the message list to [exn + option jsval] (the marker to set, or none,
      or the exception the effect throws).
    - [EquipmentFetch]: lines 18-19 and 23-36: the request URL, the
      [fetchEquipments] continuation, and the asynchronous completions as
      events on the component state.
    - [ChatView]: lines 57-89: the screen the component renders, and the
      scroll anchor of line 83.
    - [ChatInterface]: the whole component as a step function over
      events (route change, fetch settles, store mutation, socket status),
      dispatching the socket hook's events to [on_append] and
      [on_update_last]; after each commit that changed [messages] the
      scroll effect (skipped when the anchor is not rendered) and then the
      streaming effect run; its reachability relation and the theorems
      about traces.
    - [SessionSpec]: the spec's abstract session (sections 3, 4.2, 4.3
      and 9: a log of abstract messages and a marker recomputed after
      every change of the log), the relation between the component and
      it, and the refinement theorem.
    - [ChatSocket]: the lifecycle of [useChatSocket(equipment)] (line 55)
      around the component: the component mounted or unmounted, the
      hook's effect re-run with its cleanup first when [equipment]
      changes and its cleanup at the unmount, the listeners bound to one
      connection of the transport (an event of a connection is delivered
      while that connection is open), React dropping the state updates of
      an unmounted component and unmounting the tree when an effect
      throws, and the spec's session lifecycle with [Closed] (4.4) over
      the lookup's phase (resolving, active, invalid).

    ** What the theorems show (claims C1-C34 of the manifest)

    - Streaming selector ([StreamingSelector]): the marker it sets on a
      resolved assistant envelope (C1), nothing on the placeholder (C5) or
      when the last message is not an assistant's (C11), [SyntaxError] on
      a content that is not JSON (C12), [TypeError] on a parsed value
      without a [content] object (C13), and the bounds of the number it
      sets, [messages.length - 1] in [[0, 2^32 - 2]] (C26).
    - View ([ChatView]): the marker of line 49 flags exactly the last row
      keyed by line 74 (C2); at most one flagged row when keys are distinct
      (C17), two when they collide (C18); the /404 guard (C24); the
      unavailable notice, which does not depend on [loading], so a lookup
      in flight looks like a dropped connection (C25).
    - Component ([ChatInterface]): in every state reachable from the first
      render (a Section over the initial route and stores), a non-null
      marker flags a rendered assistant row (C3, by induction on the
      reachability relation, from the store's contract [MessageLogLaws]
      only) and the connection is attached to the equipment held (C8); a
      late lookup response attaches the chat to the previous route's
      equipment (C9); without explicit ids the key of row i is i (C10); an
      assistant message that is not JSON ends the component (C14); a user
      message never clears the marker (C15); the scroll call happens
      exactly when the list is rendered (C16).
    - Refinement ([SessionSpec]): on every run of events with well-formed
      payloads the component throws nothing, and its log and marker stand
      for the abstract session after the same events (C6), by a simulation
      per handler.
    - [JSON.parse] ([JsonParse], [JsonPrint]): parse (print j) = j for
      every well-formed value (C4).
    - Equipment lookup ([EquipmentFetch]): once the requests in flight
      settle, in any order and with any outcome, loading is over (C7); a
      late response overwrites a newer one (C19); [loading] is never reset
      (C20); while loading the equipment is [null] in every reachable state
      (C21); a rejection yields [null] (C22); the URL is ambiguous (C23).
    - Connection lifecycle ([ChatSocket]): in every state reachable from
      the first render, route changes, unmount and events of any
      connection included, at most one connection is open, the one the
      socket store holds, and it exists exactly while the session is
      [Active], attached to its target (C27, by rule induction on the
      reachability relation); the unmount releases it and nothing after
      it changes the stores the component left (C28); an event of any
      other connection is dropped (C29); the phase follows the spec's
      machine with [Closed] (C30, by the simulation lemma of this file);
      a route change keeps the phase and the previous target's
      connection, whose events still reach the log (C31); a [send] is
      delivered only while connected, and then the session is [Active]
      on its one connection (C32); an assistant message that is not JSON
      unmounts the tree and the teardown still releases the connection
      (C33); a connection drop keeps the session [Active], shows the
      notice and rejects sends until the same connection reports
      [connected] again (C34).

    The fuel of [JSON.parse] is [S (2 * length s)]: each unit of fuel is
    spent entering a value, which consumes a code unit, or entering the
    rest of an array or object after a consumed bracket or comma.  The
    lemma [parse_value_fuel_adequate] of [JsonParse] proves it is enough
    on every text: by induction on the fuel, one more unit changes
    nothing once the fuel exceeds twice the length of the text, since
    every parse consumes a nonempty prefix.  So the [SyntaxError] of C12,
    C14 and C33 is a syntax error of the content, never an exhausted fuel.

    ** Not modelled

    - Rendering itself (JSX, styling, [HeaderMd], [SkeletonMessage],
      [Message], [SendMessageForm]) and the router's [Navigate]: only the
      choice of screen and the props that matter are modelled.
    - [api.get] and the HTTP transport: only a request's outcome
      (fulfilled with data, or rejected) is modelled.
    - The DOM scroll of [scrollIntoView]: only the calls are counted.
    - The body of [useChatSocket] and of the stores is not in the
      fragment: they are modelled from the spec (4.1, 4.2), with the
      cleanup-before-setup order React gives an effect.  Reconnection
      and backoff are the connection manager's policy (spec 7) and are
      left to the transport: a status event of the open connection is
      all the model sees of them.
    - Error boundaries: none is in the fragment, so an exception thrown
      by an effect ends the run of [ChatInterface] ([inl]) and, in
      [ChatSocket], unmounts the tree as React does without a boundary.

    JavaScript numbers are modelled as integers ([Z]): the component only
    produces integers ([messages.length - 1]) and compares ids with [===];
    NaN, fractions and objects as ids are not modelled.  Rendering JSX,
    the scroll call, [console.log] and the router's [Navigate] are I/O and
    are modelled only by which screen is chosen. *)

From Stdlib Require Export ZArith Lia.
From stdpp Require Export base list decidable options sets relations.
(** stdpp's [last : list A -> option A], not the Standard Library's. *)
Export stdpp.list_basics.

Declare Scope chat_scope.
Delimit Scope chat_scope with chat.

(** ** The error monad of code that can throw *)

Definition sum_bind {E A B} (c : E + A) (k : A -> E + B) : E + B :=
  match c with
  | inl e => inl e
  | inr a => k a
  end.

Notation "x <-? c ;; k" := (sum_bind c (fun x => k))
  (at level 100, c at next level, right associativity) : chat_scope.

Open Scope chat_scope.

Create HintDb chat discriminated.
Create Rewrite HintDb chat_rw.

Lemma sum_bind_inr {E A B} (a : A) (k : A -> E + B) :
  sum_bind (inr a) k = k a.
Proof. reflexivity. Qed.

Lemma sum_bind_inl {E A B} (e : E) (k : A -> E + B) :
  sum_bind (inl e) k = inl e.
Proof. reflexivity. Qed.


#[export] Hint Rewrite @sum_bind_inr @sum_bind_inl : chat_rw.

(** ** Runs of a step function *)

(** A simulation of each step by an abstract relation [R], under an
    invariant [P] and for the events that satisfy [Q], extends to runs
    (the diagram of Leroy's [simulation_star], with a step function in
    place of a step relation). *)
Section Runs.
Context {S A T : Type} (f : S -> A -> S).
Variables (P : S -> Prop) (Q : A -> Prop) (abs : S -> T) (R : relation T).
Hypothesis f_sim : forall s a, P s -> Q a -> P (f s a) /\ R (abs s) (abs (f s a)).

Lemma foldl_sim (s : S) (l : list A) :
  P s -> Forall Q l -> P (foldl f s l) /\ rtc R (abs s) (abs (foldl f s l)).
Proof using f_sim.
  intros Hs Hl. revert s Hs. induction Hl as [|a l Ha _ IH]; intros s Hs; simpl; [done|].
  destruct (f_sim s a Hs Ha) as [Hs1 HR]. destruct (IH _ Hs1) as [Hs' Hrtc].
  split; [done|]. by eapply rtc_l.
Qed.
End Runs.

(** ** Lists: the last element, as JavaScript reads [l[l.length - 1]] *)

Lemma last_index_lookup {A} (l : list A) (x : A) :
  last l = Some x -> l !! (length l - 1) = Some x.
Proof.
  intros Hl. apply last_Some in Hl as [l' ->].
  rewrite length_app. simpl.
  rewrite lookup_app_r by lia.
  replace (length l' + 1 - 1 - length l') with 0 by lia. reflexivity.
Qed.



#[export] Hint Resolve last_index_lookup : chat.
#[export] Hint Rewrite @last_snoc : chat_rw.

(** ** Tactics *)

(** [zbool_cases]: split every [Z] comparison of the goal, closing the
    contradictory branches with [lia]. *)
Ltac zbool_cases :=
  repeat match goal with
    | |- context [Z.eqb ?a ?b] => destruct (Z.eqb_spec a b); try (exfalso; lia)
    | |- context [Z.ltb ?a ?b] => destruct (Z.ltb_spec a b); try (exfalso; lia)
    | |- context [Z.leb ?a ?b] => destruct (Z.leb_spec a b); try (exfalso; lia)
    end.

(** [bool_facts]: turn boolean hypotheses into propositions for [lia]. *)
Ltac bool_facts :=
  repeat match goal with
    | H : _ && _ = true |- _ => apply andb_prop in H as [? ?]
    | H : (_ <=? _)%Z = true |- _ => apply Z.leb_le in H
    | H : (_ <? _)%Z = true |- _ => apply Z.ltb_lt in H
    | H : (_ =? _)%Z = true |- _ => apply Z.eqb_eq in H
    | H : (_ <=? _)%Z = false |- _ => apply Z.leb_gt in H
    | H : (_ <? _)%Z = false |- _ => apply Z.ltb_ge in H
    | H : (_ =? _)%Z = false |- _ => apply Z.eqb_neq in H
    end.

(** [len_lia]: distribute [length] over [++] and [::], then [lia]. *)
Ltac len_lia :=
  repeat first [ rewrite length_app in * | progress cbn [length] in * ]; lia.

(** ** [Forall] and [forallb] *)

Lemma Forall_mp {A} (P Q : A -> Prop) (l : list A) :
  Forall (fun x => P x -> Q x) l -> Forall P l -> Forall Q l.
Proof. induction 1 as [|x l Hx _ IH]; inversion 1; subst; constructor; auto. Qed.

Lemma forallb_Forall {A} (f : A -> bool) (l : list A) :
  forallb f l = true -> Forall (fun x => f x = true) l.
Proof.
  induction l as [|x l IH]; simpl; [constructor|].
  intros H. apply andb_prop in H as [? ?]. constructor; auto.
Qed.

(** A duplicate-free list whose elements all equal [k] has at most one
    element. *)
Lemma NoDup_all_eq_length {A} (l : list A) (k : A) :
  NoDup l -> (forall x, x ∈ l -> x = k) -> length l <= 1.
Proof.
  destruct l as [|x [|y l]]; simpl; [lia|lia|].
  intros Hnd Hall. inversion Hnd as [|? ? Hx _]; subst.
  exfalso. apply Hx. rewrite (Hall x), (Hall y) by set_solver. set_solver.
Qed.

(** Two distinct positions whose elements satisfy [P] put two elements in
    [filter P l]. *)
Lemma filter_two_positions {A} (P : A -> Prop) `{!forall x, Decision (P x)}
    (l : list A) (i j : nat) (x y : A) :
  (i < j)%nat -> l !! i = Some x -> l !! j = Some y -> P x -> P y ->
  (2 <= length (filter P l))%nat.
Proof.
  revert i j. induction l as [|a l IH]; intros i j Hij Hi Hj Hx Hy; [done|].
  destruct i as [|i], j as [|j]; try lia; simpl in Hi, Hj.
  - injection Hi as <-. rewrite filter_cons_True by done. simpl.
    assert (Hin : y ∈ filter P l).
    { apply list_elem_of_filter. split; [done|]. by eapply list_elem_of_lookup_2. }
    destruct (filter P l); [set_solver|simpl; lia].
  - rewrite filter_cons. pose proof (IH i j ltac:(lia) Hi Hj Hx Hy).
    case_decide; simpl; lia.
Qed.


Lemma fmap_filter_fst {A B} `{EqDecision A} (l : list (A * B)) (q : A) :
  (filter (fun p => p.1 <> q) l).*1 = filter (fun x => x <> q) l.*1.
Proof.
  induction l as [|[a b] l IH]; [done|]. rewrite fmap_cons, !filter_cons.
  destruct (decide ((a, b).1 <> q)); [rewrite fmap_cons|]; by rewrite IH.
Qed.

(** Removing the one occurrence of [q] from a duplicate-free list. *)
Lemma filter_ne_not_elem_of `{EqDecision A} (l : list A) (q : A) :
  q ∉ l -> filter (fun x => x <> q) l = l.
Proof.
  induction l as [|x l IH]; intros Hq; [done|].
  apply not_elem_of_cons in Hq as [Hx Hq]. rewrite filter_cons_True by done.
  by rewrite IH.
Qed.

Lemma NoDup_perm_filter_ne `{EqDecision A} (l : list A) (q : A) :
  NoDup l -> q ∈ l -> l ≡ₚ q :: filter (fun x => x <> q) l.
Proof.
  induction l as [|x l IH]; intros Hnd Hq; [set_solver|].
  inversion Hnd as [|? ? Hx Hnd']; subst. rewrite filter_cons.
  destruct (decide (x = q)) as [->|Hne].
  - rewrite decide_False by congruence. by rewrite filter_ne_not_elem_of.
  - rewrite decide_True by done. apply elem_of_cons in Hq as [->|Hq]; [done|].
    rewrite (IH Hnd' Hq) at 1. apply Permutation_swap.
Qed.

Lemma Forall2_removelast {A B} (R : A -> B -> Prop) (l1 : list A) (l2 : list B) :
  Forall2 R l1 l2 -> Forall2 R (removelast l1) (removelast l2).
Proof.
  induction 1 as [|x y l1 l2 Hxy Hl IH]; [constructor|].
  destruct l1, l2; simpl; try constructor; by inversion Hl.
Qed.

(** A functional relation relates a list to at most one list. *)
Lemma Forall2_functional {A B} (R : A -> B -> Prop) (l : list A) (k1 k2 : list B) :
  (forall x y1 y2, R x y1 -> R x y2 -> y1 = y2) ->
  Forall2 R l k1 -> Forall2 R l k2 -> k1 = k2.
Proof.
  intros Hf H1. revert k2. induction H1 as [|x y1 l k1 Hxy _ IH]; intros k2 H2;
    inversion H2 as [|? y2 ? k2' Hxy2 H2']; subst; [done|].
  f_equal; [by eapply Hf|by apply IH].
Qed.

