(* ===== verification/JsValue.v ===== *)
(** JavaScript values of the chat screen: the primitives that a message's
    [id], [role] and [content] and the streaming marker can hold, strings
    as sequences of UTF-16 code units, truthiness, the operators [||] and
    [===] (ChatInterface.jsx lines 46, 49, 74, 75, 78) and [ToString], which
    [JSON.parse] applies to its argument. *)

From S2P Require Import Prelude.
From stdpp Require Export strings.
Require Stdlib.Strings.Ascii.

(** A JavaScript string is a sequence of 16-bit code units. *)
Definition jstr := list Z.

Definition code_unit_of_ascii (a : Ascii.ascii) : Z :=
  Z.of_nat (Ascii.nat_of_ascii a).

(** The string literal of the source, written as an ASCII Rocq string. *)
Definition js_of_string (s : String.string) : jstr :=
  map code_unit_of_ascii (String.list_ascii_of_string s).

(** A string's code units are 16-bit. *)
Definition code_units_ok (s : jstr) : bool :=
  forallb (fun c => (0 <=? c)%Z && (c <=? 65535)%Z) s.

(** The exceptions the component's code can raise. *)
Inductive exn : Type :=
  | SyntaxError
  | TypeError.

#[export] Instance exn_eq_dec : EqDecision exn.
Proof. solve_decision. Defined.

(** Primitive JavaScript values.  Numbers are integers (see the header of
    [Prelude]). *)
Inductive jsval : Type :=
  | JsUndefined
  | JsNull
  | JsBool (b : bool)
  | JsNumber (n : Z)
  | JsString (s : jstr).

#[export] Instance jsval_eq_dec : EqDecision jsval.
Proof. solve_decision. Defined.

(** ToBoolean: [undefined], [null], [false], [0] and [""] are falsy. *)
Definition js_truthy (v : jsval) : bool :=
  match v with
  | JsUndefined | JsNull => false
  | JsBool b => b
  | JsNumber n => negb (n =? 0)%Z
  | JsString s => match s with [] => false | _ :: _ => true end
  end.

(** Numbers are modelled as integers.  ECMA-262 bounds an array's
    [length] by 2^32 - 1 (10.4.2), and a Number represents every integer
    of magnitude at most 2^53 - 1 ([Number.MAX_SAFE_INTEGER]) exactly, so
    integer arithmetic on array lengths and indices is exact. *)
Definition max_array_length : Z := 2 ^ 32 - 1.
Definition max_safe_integer : Z := 2 ^ 53 - 1.

(** [a || b] evaluates to [a] when [a] is truthy, to [b] otherwise. *)
Definition js_or (a b : jsval) : jsval :=
  if js_truthy a then a else b.

(** IsStrictlyEqual ([===]): same type and same value. *)
Definition js_strict_eq (a b : jsval) : bool :=
  match a, b with
  | JsUndefined, JsUndefined => true
  | JsNull, JsNull => true
  | JsBool x, JsBool y => Bool.eqb x y
  | JsNumber x, JsNumber y => (x =? y)%Z
  | JsString x, JsString y => bool_decide (x = y)
  | _, _ => false
  end.

(** [ToString] of a number: its decimal digits, with a minus sign. *)
Fixpoint uint_digits (u : Decimal.uint) : jstr :=
  match u with
  | Decimal.Nil => []
  | Decimal.D0 u => 48 :: uint_digits u
  | Decimal.D1 u => 49 :: uint_digits u
  | Decimal.D2 u => 50 :: uint_digits u
  | Decimal.D3 u => 51 :: uint_digits u
  | Decimal.D4 u => 52 :: uint_digits u
  | Decimal.D5 u => 53 :: uint_digits u
  | Decimal.D6 u => 54 :: uint_digits u
  | Decimal.D7 u => 55 :: uint_digits u
  | Decimal.D8 u => 56 :: uint_digits u
  | Decimal.D9 u => 57 :: uint_digits u
  end%Z.

Definition number_to_string (z : Z) : jstr :=
  match z with
  | Z0 => [48%Z]
  | Zpos p => uint_digits (Pos.to_uint p)
  | Zneg p => 45%Z :: uint_digits (Pos.to_uint p)
  end.

Definition js_to_string (v : jsval) : jstr :=
  match v with
  | JsUndefined => js_of_string "undefined"
  | JsNull => js_of_string "null"
  | JsBool true => js_of_string "true"
  | JsBool false => js_of_string "false"
  | JsNumber n => number_to_string n
  | JsString s => s
  end.

(** ** Laws *)

(** [===] on the modelled values is equality: there is no NaN and no
    object identity among them. *)
Lemma js_strict_eq_spec (a b : jsval) : js_strict_eq a b = true <-> a = b.
Proof.
  destruct a, b; simpl; split; intros H; try discriminate; try congruence.
  - apply Bool.eqb_prop in H. congruence.
  - injection H as ->. apply Bool.eqb_reflx.
  - apply Z.eqb_eq in H. congruence.
  - injection H as ->. apply Z.eqb_refl.
  - apply bool_decide_eq_true in H. congruence.
  - injection H as ->. by apply bool_decide_eq_true.
Qed.

Lemma js_strict_eq_refl (a : jsval) : js_strict_eq a a = true.
Proof. by apply js_strict_eq_spec. Qed.

Lemma js_strict_eq_sym (a b : jsval) : js_strict_eq a b = js_strict_eq b a.
Proof.
  destruct (js_strict_eq a b) eqn:E1, (js_strict_eq b a) eqn:E2; try done.
  - apply js_strict_eq_spec in E1. subst. by rewrite js_strict_eq_refl in E2.
  - apply js_strict_eq_spec in E2. subst. by rewrite js_strict_eq_refl in E1.
Qed.

Lemma js_or_truthy (a b : jsval) : js_truthy a = true -> js_or a b = a.
Proof. unfold js_or. by intros ->. Qed.

Lemma js_or_falsy (a b : jsval) : js_truthy a = false -> js_or a b = b.
Proof. unfold js_or. by intros ->. Qed.

Lemma js_or_cases (a b : jsval) :
  (js_truthy a = true /\ js_or a b = a) \/ (js_truthy a = false /\ js_or a b = b).
Proof. unfold js_or. destruct (js_truthy a); auto. Qed.

Lemma js_of_string_code_units (s : String.string) :
  code_units_ok (js_of_string s) = true.
Proof.
  unfold code_units_ok, js_of_string. apply forallb_forall.
  intros c Hc. apply in_map_iff in Hc as [a [<- _]].
  unfold code_unit_of_ascii. pose proof (Ascii.nat_ascii_bounded a).
  apply andb_true_intro. split; apply Z.leb_le; lia.
Qed.

#[export] Hint Resolve js_strict_eq_refl js_or_truthy js_or_falsy : chat.
#[export] Hint Rewrite js_strict_eq_refl : chat_rw.
