(* ===== verification/Json.v ===== *)
(** JSON values as [JSON.parse] builds them (ECMA-262 25.5.1 over the
    ECMA-404 grammar), which the streaming effect of ChatInterface.jsx
    parses from a message's content (line 47): the value type, the lexical
    classes, well-formedness, truthiness ([!equipment], line 57), and the
    property reads [parsed.content.responseText] of line 48, which throw
    [TypeError] on [null] and [undefined]. *)

From S2P Require Import Prelude JsValue.

Open Scope Z_scope.
#[local] Set Warnings "-register-all".

(** ** JSON values *)

(** A number keeps its decimal form: sign, integer digits, fraction
    digits, exponent (negative?, digits).  [e]/[E] and an explicit [+] in
    the exponent are not distinguished, as [JSON.parse] does not. *)
Record jnumber : Type := mk_jnumber {
  num_neg : bool;
  num_int : list Z;
  num_frac : option (list Z);
  num_exp : option (bool * list Z)
}.

#[export] Instance jnumber_eq_dec : EqDecision jnumber.
Proof. solve_decision. Defined.

(** An object keeps its members in source order, duplicates included:
    a read returns the last one, as [JSON.parse] lets later members
    overwrite earlier ones. *)
Inductive json : Type :=
  | JNull
  | JBool (b : bool)
  | JNum (n : jnumber)
  | JStr (s : jstr)
  | JArr (xs : list json)
  | JObj (kvs : list (jstr * json)).

(** Induction with hypotheses on the elements of arrays and objects. *)
Section json_ind'.
Variable P : json -> Prop.
Hypothesis HNull : P JNull.
Hypothesis HBool : forall b, P (JBool b).
Hypothesis HNum : forall n, P (JNum n).
Hypothesis HStr : forall s, P (JStr s).
Hypothesis HArr : forall xs, Forall P xs -> P (JArr xs).
Hypothesis HObj : forall kvs, Forall (fun kv => P kv.2) kvs -> P (JObj kvs).

Fixpoint json_ind' (j : json) : P j :=
  match j with
  | JNull => HNull
  | JBool b => HBool b
  | JNum n => HNum n
  | JStr s => HStr s
  | JArr xs =>
      HArr xs ((fix go (l : list json) : Forall P l :=
                  match l with
                  | [] => Forall_nil_2 _
                  | x :: l' => Forall_cons_2 _ _ _ (json_ind' x) (go l')
                  end) xs)
  | JObj kvs =>
      HObj kvs ((fix go (l : list (jstr * json)) : Forall (fun kv => P kv.2) l :=
                   match l with
                   | [] => Forall_nil_2 _
                   | kv :: l' => Forall_cons_2 _ _ _ (json_ind' kv.2) (go l')
                   end) kvs)
  end.
End json_ind'.

(** ** Lexical classes *)

Definition is_ws (c : Z) : bool := (c =? 9) || (c =? 10) || (c =? 13) || (c =? 32).
Definition is_digit (c : Z) : bool := (48 <=? c) && (c <=? 57).

(** ** Property reads *)

(** A property value: [None] is [undefined]. *)
Definition pvalue := option json.

Fixpoint assoc_last (k : jstr) (kvs : list (jstr * json)) : option json :=
  match kvs with
  | [] => None
  | (k', v) :: r =>
      match assoc_last k r with
      | Some v' => Some v'
      | None => if bool_decide (k = k') then Some v else None
      end
  end.

(** [v.k] for a key that is not ["length"], not an array index and not a
    property of [Object.prototype] or of the primitive prototypes (such as
    ["content"] and ["responseText"]): the object's own member, [undefined]
    on the other values, and a [TypeError] on [null] and [undefined]. *)
Definition get_prop (v : pvalue) (k : jstr) : exn + pvalue :=
  match v with
  | None => inl TypeError
  | Some JNull => inl TypeError
  | Some (JObj kvs) => inr (assoc_last k kvs)
  | Some _ => inr None
  end.

(** ** Well-formed values *)

Definition digits_ok (ds : list Z) : bool := forallb is_digit ds.

Definition nonempty (ds : list Z) : bool :=
  match ds with [] => false | _ :: _ => true end.

(** [0], or a digit [1-9] followed by digits. *)
Definition int_digits_ok (ds : list Z) : bool :=
  match ds with
  | [] => false
  | c :: r => if c =? 48 then negb (nonempty r) else is_digit c && digits_ok r
  end.

Definition jnumber_ok (n : jnumber) : bool :=
  int_digits_ok (num_int n) &&
  match num_frac n with Some ds => nonempty ds && digits_ok ds | None => true end &&
  match num_exp n with Some (_, ds) => nonempty ds && digits_ok ds | None => true end.

Fixpoint json_wf (j : json) : bool :=
  match j with
  | JNull | JBool _ => true
  | JNum n => jnumber_ok n
  | JStr s => code_units_ok s
  | JArr xs =>
      (fix go (l : list json) : bool :=
         match l with [] => true | x :: l' => json_wf x && go l' end) xs
  | JObj kvs =>
      (fix go (l : list (jstr * json)) : bool :=
         match l with
         | [] => true
         | (k, v) :: l' => code_units_ok k && json_wf v && go l'
         end) kvs
  end.

(** What may follow a value inside a text: nothing, [,], []] or [}]. *)

Lemma json_wf_arr (xs : list json) : json_wf (JArr xs) = forallb json_wf xs.
Proof. reflexivity. Qed.

Lemma json_wf_obj (kvs : list (jstr * json)) :
  json_wf (JObj kvs) = forallb (fun kv => code_units_ok kv.1 && json_wf kv.2) kvs.
Proof. induction kvs as [|[k v] l IH]; [done|]. simpl. f_equal. exact IH. Qed.


(** ** Truthiness of a parsed value *)

(** ToBoolean of the value [JSON.parse] builds: [null], [false], [""] and a
    number whose digits are all zero are falsy; arrays and objects are
    truthy.  (A nonzero literal that underflows to 0 in binary64, such as
    [1e-400], is counted as truthy.) *)
Definition json_truthy (j : json) : bool :=
  match j with
  | JNull => false
  | JBool b => b
  | JNum n =>
      negb (forallb (fun d => d =? 48) (num_int n) &&
            match num_frac n with Some ds => forallb (fun d => d =? 48) ds | None => true end)
  | JStr s => nonempty s
  | JArr _ | JObj _ => true
  end.

