(* ===== verification/JsonParse.v ===== *)
(** [JSON.parse] (ECMA-262 25.5.1), which the streaming effect applies to
    a message's content (ChatInterface.jsx line 47): a recursive-descent
    parser of the JSON grammar over UTF-16 code units, driven by fuel, and
    the facts that make the fuel harmless: every parse consumes a nonempty
    prefix of its text, so the fuel [parse_fuel s] is enough (any larger
    fuel gives the same result) and a [SyntaxError] of [json_parse_text]
    is a syntax error of the text, never an exhausted fuel. *)

From S2P Require Import Prelude JsValue Json.

Open Scope Z_scope.
#[local] Set Warnings "-register-all".

Fixpoint skip_ws (s : jstr) : jstr :=
  match s with
  | c :: r => if is_ws c then skip_ws r else s
  | [] => []
  end.

(** [strip_prefix p s]: [Some r] when [s = p ++ r]. *)
Fixpoint strip_prefix (p s : jstr) : option jstr :=
  match p, s with
  | [], _ => Some s
  | c :: p', d :: s' => if c =? d then strip_prefix p' s' else None
  | _ :: _, [] => None
  end.

(** The longest prefix of digits. *)
Fixpoint take_digits (s : jstr) : list Z * jstr :=
  match s with
  | c :: r =>
      if is_digit c then let '(ds, r') := take_digits r in (c :: ds, r')
      else ([], s)
  | [] => ([], [])
  end.

(** ** Numbers: [-? (0 | [1-9][0-9]* ) (. [0-9]+)? ([eE] [+-]? [0-9]+)?] *)

Definition parse_int_part (s : jstr) : option (list Z * jstr) :=
  match s with
  | c :: r =>
      if c =? 48 then Some ([c], r)
      else if is_digit c then let '(ds, r') := take_digits r in Some (c :: ds, r')
      else None
  | [] => None
  end.

Definition parse_frac_part (s : jstr) : option (option (list Z) * jstr) :=
  match s with
  | c :: r =>
      if c =? 46 then
        match take_digits r with
        | ([], _) => None
        | (ds, r') => Some (Some ds, r')
        end
      else Some (None, s)
  | [] => Some (None, [])
  end.

Definition parse_exp_digits (neg : bool) (s : jstr) : option (option (bool * list Z) * jstr) :=
  match take_digits s with
  | ([], _) => None
  | (ds, r) => Some (Some (neg, ds), r)
  end.

Definition parse_exp_part (s : jstr) : option (option (bool * list Z) * jstr) :=
  match s with
  | c :: r =>
      if (c =? 101) || (c =? 69) then
        match r with
        | d :: r' =>
            if d =? 45 then parse_exp_digits true r'
            else if d =? 43 then parse_exp_digits false r'
            else parse_exp_digits false r
        | [] => None
        end
      else Some (None, s)
  | [] => Some (None, [])
  end.

Definition parse_number (s : jstr) : option (jnumber * jstr) :=
  let '(neg, s1) := match s with
                    | c :: r => if c =? 45 then (true, r) else (false, s)
                    | [] => (false, [])
                    end in
  match parse_int_part s1 with
  | None => None
  | Some (i, s2) =>
      match parse_frac_part s2 with
      | None => None
      | Some (f, s3) =>
          match parse_exp_part s3 with
          | None => None
          | Some (e, s4) => Some (mk_jnumber neg i f e, s4)
          end
      end
  end.

(** ** Strings *)

(** The one-character escapes: backslash followed by a quote, a
    backslash, a slash, or one of b f n r t. *)
Definition simple_escape (e : Z) : option Z :=
  if e =? 34 then Some 34
  else if e =? 92 then Some 92
  else if e =? 47 then Some 47
  else if e =? 98 then Some 8
  else if e =? 102 then Some 12
  else if e =? 110 then Some 10
  else if e =? 114 then Some 13
  else if e =? 116 then Some 9
  else None.

Definition hex_val (c : Z) : option Z :=
  if (48 <=? c) && (c <=? 57) then Some (c - 48)
  else if (65 <=? c) && (c <=? 70) then Some (c - 55)
  else if (97 <=? c) && (c <=? 102) then Some (c - 87)
  else None.

Definition hex4 (a b c d : Z) : option Z :=
  match hex_val a, hex_val b, hex_val c, hex_val d with
  | Some x, Some y, Some z, Some w => Some (((x * 16 + y) * 16 + z) * 16 + w)
  | _, _, _, _ => None
  end.

Definition cons_fst (u : Z) (o : option (jstr * jstr)) : option (jstr * jstr) :=
  match o with
  | Some (t, r) => Some (u :: t, r)
  | None => None
  end.

(** The characters of a string after its opening quote, up to and
    including the closing quote.  Code units below 0x20 must be escaped. *)
Fixpoint parse_chars (s : jstr) : option (jstr * jstr) :=
  match s with
  | [] => None
  | c :: r =>
      if c =? 34 then Some ([], r)
      else if c =? 92 then
        match r with
        | [] => None
        | e :: r' =>
            match simple_escape e with
            | Some u => cons_fst u (parse_chars r')
            | None =>
                if e =? 117 then
                  match r' with
                  | h1 :: h2 :: h3 :: h4 :: r'' =>
                      match hex4 h1 h2 h3 h4 with
                      | Some u => cons_fst u (parse_chars r'')
                      | None => None
                      end
                  | _ => None
                  end
                else None
            end
        end
      else if c <? 32 then None
      else cons_fst c (parse_chars r)
  end.

(** ** Values, arrays and objects *)

(** [parse_value] skips leading whitespace; its callers skip the
    whitespace after a value.  Each level of the mutual recursion spends
    one unit of fuel. *)
Fixpoint parse_value (fuel : nat) (s : jstr) {struct fuel} : option (json * jstr) :=
  match fuel with
  | O => None
  | S f =>
      match skip_ws s with
      | [] => None
      | c :: r =>
          if c =? 123 then
            match skip_ws r with
            | d :: r' => if d =? 125 then Some (JObj [], r') else
                          match parse_members f (skip_ws r) with
                          | Some (kvs, r'') => Some (JObj kvs, r'')
                          | None => None
                          end
            | [] => None
            end
          else if c =? 91 then
            match skip_ws r with
            | d :: r' => if d =? 93 then Some (JArr [], r') else
                          match parse_elems f r with
                          | Some (xs, r'') => Some (JArr xs, r'')
                          | None => None
                          end
            | [] => None
            end
          else if c =? 34 then
            match parse_chars r with
            | Some (t, r') => Some (JStr t, r')
            | None => None
            end
          else if c =? 116 then
            option_map (fun r' => (JBool true, r')) (strip_prefix [114; 117; 101] r)
          else if c =? 102 then
            option_map (fun r' => (JBool false, r')) (strip_prefix [97; 108; 115; 101] r)
          else if c =? 110 then
            option_map (fun r' => (JNull, r')) (strip_prefix [117; 108; 108] r)
          else if (c =? 45) || is_digit c then
            option_map (fun '(n, r') => (JNum n, r')) (parse_number (c :: r))
          else None
      end
  end
(** The elements of an array after [[]: a value, then [,] and more
    elements, or []]. *)
with parse_elems (fuel : nat) (s : jstr) {struct fuel} : option (list json * jstr) :=
  match fuel with
  | O => None
  | S f =>
      match parse_value f s with
      | None => None
      | Some (v, r) =>
          match skip_ws r with
          | c :: r' =>
              if c =? 44 then
                match parse_elems f r' with
                | Some (vs, r'') => Some (v :: vs, r'')
                | None => None
                end
              else if c =? 93 then Some ([v], r')
              else None
          | [] => None
          end
      end
  end
(** The members of an object after [{] and whitespace: a string key, [:],
    a value, then [,] and more members, or [}]. *)
with parse_members (fuel : nat) (s : jstr) {struct fuel} : option (list (jstr * json) * jstr) :=
  match fuel with
  | O => None
  | S f =>
      match s with
      | q :: r =>
          if q =? 34 then
            match parse_chars r with
            | None => None
            | Some (k, r1) =>
                match skip_ws r1 with
                | col :: r2 =>
                    if col =? 58 then
                      match parse_value f r2 with
                      | None => None
                      | Some (v, r3) =>
                          match skip_ws r3 with
                          | c :: r4 =>
                              if c =? 44 then
                                match parse_members f (skip_ws r4) with
                                | Some (kvs, r5) => Some ((k, v) :: kvs, r5)
                                | None => None
                                end
                              else if c =? 125 then Some ([(k, v)], r4)
                              else None
                          | [] => None
                          end
                      end
                    else None
                | [] => None
                end
            end
          else None
      | [] => None
      end
  end.

(** The fuel of a text: two units per code unit and one more (each unit of
    fuel is spent entering a value, which consumes a code unit, or entering
    the rest of an array or object after a consumed [[], [{] or [,]). *)
Definition parse_fuel (s : jstr) : nat := S (2 * length s).

(** [JSON.parse(text)]: [ToString], one value between whitespace, and a
    [SyntaxError] for anything else. *)
Definition json_parse_text (s : jstr) : exn + json :=
  match parse_value (parse_fuel s) s with
  | Some (v, r) => match skip_ws r with [] => inr v | _ :: _ => inl SyntaxError end
  | None => inl SyntaxError
  end.

Definition JSON_parse (v : jsval) : exn + json :=
  json_parse_text (js_to_string v).

Lemma JSON_parse_string (t : jstr) : JSON_parse (JsString t) = json_parse_text t.
Proof. reflexivity. Qed.

(** [consumed s r]: [r] is what remains of [s] after a nonempty prefix. *)
Definition consumed (s r : jstr) : Prop := exists p, p <> [] /\ s = p ++ r.

Section Remainders.

Lemma suffix_of_trans (l1 l2 l3 : jstr) :
  l1 `suffix_of` l2 -> l2 `suffix_of` l3 -> l1 `suffix_of` l3.
Proof. intros; by etrans. Qed.

Lemma consumed_length (s r : jstr) : consumed s r -> (length r < length s)%nat.
Proof. intros (p & Hp & ->). destruct p; [done|]. simpl. rewrite length_app. lia. Qed.

Lemma consumed_suffix_of (s r : jstr) : consumed s r -> r `suffix_of` s.
Proof. intros (p & _ & ->). by exists p. Qed.

Lemma consumed_suffix_l (s s' r : jstr) :
  s' `suffix_of` s -> consumed s' r -> consumed s r.
Proof.
  intros [k ->] (p & Hp & ->). exists (k ++ p). split; [|by rewrite app_assoc].
  destruct k, p; done.
Qed.

Lemma consumed_suffix_r (s t r : jstr) :
  consumed s t -> r `suffix_of` t -> consumed s r.
Proof.
  intros (p & Hp & ->) [k ->]. exists (p ++ k). split; [|by rewrite app_assoc].
  destruct p; done.
Qed.

Lemma consumed_cons (c : Z) (t r : jstr) : r `suffix_of` t -> consumed (c :: t) r.
Proof. intros [k ->]. by exists (c :: k). Qed.

Lemma code_units_ok_app (p r : jstr) :
  code_units_ok (p ++ r) = code_units_ok p && code_units_ok r.
Proof. apply forallb_app. Qed.

Lemma code_units_ok_suffix (s r : jstr) :
  r `suffix_of` s -> code_units_ok s = true -> code_units_ok r = true.
Proof. intros [k ->]. rewrite code_units_ok_app. by intros [_ ?]%andb_prop. Qed.

Lemma skip_ws_suffix (s : jstr) : skip_ws s `suffix_of` s.
Proof.
  induction s as [|c s IH]; simpl; [done|].
  destruct (is_ws c); [by apply suffix_cons_r|done].
Qed.

Lemma skip_ws_cons (s r : jstr) (c : Z) : skip_ws s = c :: r -> consumed s r.
Proof.
  intros H. eapply consumed_suffix_l; [apply skip_ws_suffix|]. rewrite H.
  by apply consumed_cons.
Qed.

Lemma strip_prefix_app (p s r : jstr) : strip_prefix p s = Some r -> s = p ++ r.
Proof.
  revert s. induction p as [|c p IH]; intros [|d s] H; simpl in *; try congruence.
  destruct (Z.eqb_spec c d) as [<-|]; [|done]. f_equal. by apply IH.
Qed.

Lemma take_digits_app_inv (s ds r : jstr) :
  take_digits s = (ds, r) -> s = ds ++ r /\ digits_ok ds = true.
Proof.
  revert ds r. induction s as [|c s IH]; intros ds r H; simpl in H.
  - by injection H as <- <-.
  - destruct (is_digit c) eqn:Hc; [|by injection H as <- <-].
    destruct (take_digits s) as [ds' r'] eqn:E. injection H as <- <-.
    destruct (IH ds' r' eq_refl) as [-> Hds]. simpl. by rewrite Hc, Hds.
Qed.

Lemma parse_int_part_inv (s i r : jstr) :
  parse_int_part s = Some (i, r) -> s = i ++ r /\ int_digits_ok i = true.
Proof.
  destruct s as [|c s]; simpl; [done|].
  destruct (Z.eqb_spec c 48) as [->|H48]; [by intros [= <- <-]|].
  destruct (is_digit c) eqn:Hc; [|done].
  destruct (take_digits s) as [ds r'] eqn:E. intros [= <- <-].
  destruct (take_digits_app_inv _ _ _ E) as [-> Hds]. simpl.
  apply Z.eqb_neq in H48. by rewrite H48, Hc, Hds.
Qed.

Lemma parse_frac_part_inv (s r : jstr) (f : option (list Z)) :
  parse_frac_part s = Some (f, r) ->
  s = (match f with Some ds => 46 :: ds | None => [] end) ++ r /\
  match f with Some ds => nonempty ds && digits_ok ds | None => true end = true.
Proof.
  destruct s as [|c s]; simpl; [by intros [= <- <-]|].
  destruct (Z.eqb_spec c 46) as [->|]; [|by intros [= <- <-]].
  destruct (take_digits s) as [[|d ds] r'] eqn:E; [done|]. intros [= <- <-].
  by destruct (take_digits_app_inv _ _ _ E) as [-> ->].
Qed.

Lemma parse_exp_digits_inv (neg : bool) (s r : jstr) (e : option (bool * list Z)) :
  parse_exp_digits neg s = Some (e, r) ->
  r `suffix_of` s /\
  match e with Some (_, ds) => nonempty ds && digits_ok ds | None => true end = true.
Proof.
  unfold parse_exp_digits. destruct (take_digits s) as [[|d ds] r'] eqn:E; [done|].
  intros [= <- <-]. destruct (take_digits_app_inv _ _ _ E) as [-> ->].
  split; [by eexists|done].
Qed.

Lemma parse_exp_part_inv (s r : jstr) (e : option (bool * list Z)) :
  parse_exp_part s = Some (e, r) ->
  r `suffix_of` s /\
  match e with Some (_, ds) => nonempty ds && digits_ok ds | None => true end = true.
Proof.
  destruct s as [|c s]; simpl; [by intros [= <- <-]|].
  destruct ((c =? 101) || (c =? 69)); [|by intros [= <- <-]].
  destruct s as [|d s]; [done|].
  intros Hd. destruct (d =? 45); [|destruct (d =? 43)];
    apply parse_exp_digits_inv in Hd as [Hs He]; (split; [|done]);
    first [by do 2 apply suffix_cons_r | by apply suffix_cons_r].
Qed.

Lemma parse_number_inv (s r : jstr) (n : jnumber) :
  parse_number s = Some (n, r) -> consumed s r /\ jnumber_ok n = true.
Proof.
  unfold parse_number.
  destruct (match s with c :: r => if c =? 45 then (true, r) else (false, s)
            | [] => (false, []) end) as [neg s1] eqn:Hs1.
  assert (Hsuf : s1 `suffix_of` s).
  { destruct s as [|c s]; [by injection Hs1 as _ <-|].
    destruct (c =? 45); injection Hs1 as _ <-; [apply suffix_cons_r|]; done. }
  destruct (parse_int_part s1) as [[i s2]|] eqn:Hi; [|done].
  destruct (parse_frac_part s2) as [[f s3]|] eqn:Hf; [|done].
  destruct (parse_exp_part s3) as [[e s4]|] eqn:He; [|done]. intros [= <- <-].
  apply parse_int_part_inv in Hi as [-> Hi]. apply parse_frac_part_inv in Hf as [-> Hf].
  apply parse_exp_part_inv in He as [[k ->] He].
  split; [|unfold jnumber_ok; simpl; by rewrite Hi, Hf, He].
  eapply consumed_suffix_l; [exact Hsuf|]. exists (i ++ (match f with Some ds => 46 :: ds | None => [] end) ++ k).
  split; [destruct i; done|]. by rewrite <- !app_assoc.
Qed.

(** ** Strings: the code units a string literal denotes *)

Lemma simple_escape_range (e u : Z) : simple_escape e = Some u -> 0 <= u <= 65535.
Proof. unfold simple_escape. repeat case_match; intros [= <-]; lia. Qed.

Lemma hex_val_range (c x : Z) : hex_val c = Some x -> 0 <= x < 16.
Proof. unfold hex_val. repeat case_match; intros [= <-]; bool_facts; lia. Qed.

Lemma hex4_range (a b c d u : Z) : hex4 a b c d = Some u -> 0 <= u <= 65535.
Proof.
  unfold hex4.
  destruct (hex_val a) eqn:Ha, (hex_val b) eqn:Hb, (hex_val c) eqn:Hc, (hex_val d) eqn:Hd;
    try done.
  intros [= <-]. apply hex_val_range in Ha, Hb, Hc, Hd. lia.
Qed.

Lemma cons_fst_inv (u : Z) (o : option (jstr * jstr)) (t r : jstr) :
  cons_fst u o = Some (t, r) -> exists t', o = Some (t', r) /\ t = u :: t'.
Proof. destruct o as [[t' r']|]; simpl; [intros [= <- <-]; eauto|done]. Qed.

Lemma parse_chars_inv (s t r : jstr) :
  parse_chars s = Some (t, r) ->
  consumed s r /\ (code_units_ok s = true -> code_units_ok t = true).
Proof.
  remember (length s) as n eqn:Hn. revert s t r Hn.
  induction n as [n IH] using lt_wf_ind. intros [|c s] t r Hn H; [done|].
  simpl in H. cbn [length] in Hn.
  (* a code unit [u] in range, then the rest [s'], a suffix of [s] *)
  assert (Hstep : forall u s', (code_units_ok (c :: s) = true -> 0 <= u <= 65535) ->
            s' `suffix_of` s ->
            cons_fst u (parse_chars s') = Some (t, r) ->
            consumed (c :: s) r /\ (code_units_ok (c :: s) = true -> code_units_ok t = true)).
  { intros u s' Hu Hs' Hc. apply cons_fst_inv in Hc as (t' & Ht' & ->).
    pose proof (suffix_length _ _ Hs').
    destruct (IH (length s') ltac:(lia) s' t' r eq_refl Ht') as [Hcons Hok].
    split; [eapply consumed_suffix_l; [apply suffix_cons_r; exact Hs'|exact Hcons]|].
    intros Hs. specialize (Hu Hs). simpl in Hs |- *. apply andb_prop in Hs as [_ Hs].
    rewrite Hok by (eapply code_units_ok_suffix; eauto).
    apply andb_true_intro. split; [|done]. apply andb_true_intro. split; apply Z.leb_le; lia. }
  destruct (Z.eqb_spec c 34) as [_|H34]; [injection H as <- <-; split; [by apply consumed_cons|done]|].
  destruct (Z.eqb_spec c 92) as [_|H92].
  - destruct s as [|e s']; [done|]. destruct (simple_escape e) as [u|] eqn:Hu.
    + apply (Hstep u s'); [intros _; by eapply simple_escape_range| by apply suffix_cons_r|done].
    + destruct (e =? 117); [|done].
      destruct s' as [|h1 [|h2 [|h3 [|h4 s'']]]]; try done.
      destruct (hex4 h1 h2 h3 h4) as [u|] eqn:Hx; [|done].
      apply (Hstep u s''); [intros _; by eapply hex4_range| |done].
      by do 5 apply suffix_cons_r.
  - destruct (c <? 32) eqn:Hlt; [done|].
    apply (Hstep c s); [|done|exact H].
    simpl. intros [Hc _]%andb_prop. bool_facts. lia.
Qed.

Lemma skip_ws_cons_suffix (r0 r' : jstr) (d : Z) : skip_ws r0 = d :: r' -> r' `suffix_of` r0.
Proof.
  intros Hr0. apply (suffix_of_trans _ (skip_ws r0)); [rewrite Hr0; by apply suffix_cons_r|apply skip_ws_suffix].
Qed.

End Remainders.

#[export] Hint Resolve consumed_suffix_of skip_ws_suffix consumed_cons : chat.

(** ** Values: what remains, and the well-formedness of what is read *)

(** What [parse_value], [parse_elems] and [parse_members] return: a
    remainder after a nonempty prefix and, on a text of code units, a
    well-formed value. *)
Definition parse_ok {A} (wf : A -> bool) (s : jstr) (o : option (A * jstr)) : Prop :=
  forall a r, o = Some (a, r) -> consumed s r /\ (code_units_ok s = true -> wf a = true).

Lemma parse_ok_skip (wf : json -> bool) (s r0 : jstr) (c : Z) (o : option (json * jstr)) :
  skip_ws s = c :: r0 -> parse_ok wf (c :: r0) o -> parse_ok wf s o.
Proof.
  intros Hs Ho a r Ha. destruct (Ho a r Ha) as [Hc Hwf]. split.
  - eapply consumed_suffix_l; [|exact Hc]. rewrite <- Hs. apply skip_ws_suffix.
  - intros Hok. apply Hwf. rewrite <- Hs. by eapply code_units_ok_suffix; [apply skip_ws_suffix|].
Qed.

Section ParseInvStep.
(** One more unit of fuel, given the invariant at the fuel [f]. *)
Variable f : nat.
Hypothesis IHv : forall s, parse_ok json_wf s (parse_value f s).
Hypothesis IHe : forall s, parse_ok (forallb json_wf) s (parse_elems f s).
Hypothesis IHm : forall s, parse_ok (fun kvs => json_wf (JObj kvs)) s (parse_members f s).

Lemma parse_value_inv_S (s : jstr) : parse_ok json_wf s (parse_value (S f) s).
Proof using IHe IHm.
  pose proof code_units_ok_suffix as Hsuf. pose proof skip_ws_cons_suffix as Hskip.
  simpl. destruct (skip_ws s) as [|c r0] eqn:Hs; [done|].
  apply (parse_ok_skip _ _ _ _ _ Hs). intros v r.
  destruct (c =? 123).
  + destruct (skip_ws r0) as [|d r'] eqn:Hr0; [done|].
    destruct (d =? 125); [intros [= <- <-]; split; [by eapply consumed_cons, Hskip|done]|].
    destruct (parse_members f (d :: r')) as [[kvs r'']|] eqn:Hm; [|done].
    intros [= <- <-]. destruct (IHm _ _ _ Hm) as [Hc Hwf]. rewrite <- Hr0 in Hc, Hwf.
    split; [apply consumed_cons; eapply suffix_of_trans; [apply consumed_suffix_of, Hc|apply skip_ws_suffix]|].
    intros Hok. apply Hwf. apply (Hsuf (c :: r0)); [|done]. apply suffix_cons_r, skip_ws_suffix.
  + destruct (c =? 91).
    * destruct (skip_ws r0) as [|d r'] eqn:Hr0; [done|].
      destruct (d =? 93); [intros [= <- <-]; split; [by eapply consumed_cons, Hskip|done]|].
      destruct (parse_elems f r0) as [[xs r'']|] eqn:He; [|done].
      intros [= <- <-]. destruct (IHe _ _ _ He) as [Hc Hwf].
      split; [by apply consumed_cons, consumed_suffix_of|].
      intros Hok. rewrite json_wf_arr. apply Hwf. by apply (Hsuf (c :: r0)); [apply suffix_cons_r|].
    * destruct (c =? 34).
      -- destruct (parse_chars r0) as [[t r']|] eqn:Hc; [|done]. intros [= <- <-].
         apply parse_chars_inv in Hc as [Hc Hok].
         split; [by apply consumed_cons, consumed_suffix_of|].
         intros Hs'. apply Hok. by apply (Hsuf (c :: r0)); [apply suffix_cons_r|].
      -- assert (Hlit : forall p (w : json), json_wf w = true ->
                   option_map (fun r' => (w, r')) (strip_prefix p r0) = Some (v, r) ->
                   consumed (c :: r0) r /\ (code_units_ok (c :: r0) = true -> json_wf v = true)).
         { intros p w Hw Hp. destruct (strip_prefix p r0) as [r'|] eqn:Hp'; [|done].
           injection Hp as <- <-. apply strip_prefix_app in Hp'. subst r0.
           split; [apply consumed_cons; by exists p|done]. }
         destruct (c =? 116); [intros H; apply (Hlit [114; 117; 101] (JBool true)); [done|exact H]|].
         destruct (c =? 102); [intros H; apply (Hlit [97; 108; 115; 101] (JBool false)); [done|exact H]|].
         destruct (c =? 110); [intros H; apply (Hlit [117; 108; 108] JNull); [done|exact H]|].
         destruct ((c =? 45) || is_digit c); [|done].
         destruct (parse_number (c :: r0)) as [[m r']|] eqn:Hn; [|done].
         intros [= <- <-]. by apply parse_number_inv in Hn as [? ?].
Qed.

Lemma parse_elems_inv_S (s : jstr) : parse_ok (forallb json_wf) s (parse_elems (S f) s).
Proof using IHv IHe.
  pose proof code_units_ok_suffix as Hsuf. pose proof skip_ws_cons_suffix as Hskip.
  intros xs r. simpl.
  destruct (parse_value f s) as [[v r1]|] eqn:Hv; [|done].
  destruct (IHv _ _ _ Hv) as [Hc1 Hwf1].
  destruct (skip_ws r1) as [|c r'] eqn:Hr1; [done|].
  assert (Hc' : consumed s r') by (eapply consumed_suffix_r; [exact Hc1|by eapply Hskip]).
  destruct (c =? 44).
  + destruct (parse_elems f r') as [[vs r'']|] eqn:He; [|done]. intros [= <- <-].
    destruct (IHe _ _ _ He) as [Hc2 Hwf2].
    split; [eapply consumed_suffix_r; [exact Hc'|by apply consumed_suffix_of]|].
    intros Hok. simpl. rewrite Hwf1, Hwf2; [done| |done].
    eapply Hsuf; [apply consumed_suffix_of, Hc'|done].
  + destruct (c =? 93); [|done]. intros [= <- <-]. split; [done|].
    intros Hok. simpl. by rewrite Hwf1.
Qed.

Lemma parse_members_inv_S (s : jstr) :
  parse_ok (fun kvs => json_wf (JObj kvs)) s (parse_members (S f) s).
Proof using IHv IHm.
  pose proof code_units_ok_suffix as Hsuf. pose proof skip_ws_cons_suffix as Hskip.
  intros kvs r. cbn [parse_members].
  destruct s as [|q r0]; [done|]. destruct (q =? 34); [|done].
  destruct (parse_chars r0) as [[k r1]|] eqn:Hk; [|done].
  apply parse_chars_inv in Hk as [Hck Hok_k].
  destruct (skip_ws r1) as [|col r2] eqn:Hr1; [done|].
  destruct (col =? 58); [|done].
  destruct (parse_value f r2) as [[v r3]|] eqn:Hv; [|done].
  destruct (IHv _ _ _ Hv) as [Hcv Hwfv].
  destruct (skip_ws r3) as [|c r4] eqn:Hr3; [done|].
  assert (H2 : consumed (q :: r0) r2).
  { apply consumed_cons. eapply suffix_of_trans; [by eapply Hskip|by apply consumed_suffix_of]. }
  assert (H4 : consumed (q :: r0) r4).
  { eapply consumed_suffix_r; [exact H2|].
    eapply suffix_of_trans; [by eapply Hskip|by apply consumed_suffix_of]. }
  assert (Hkv : code_units_ok (q :: r0) = true -> code_units_ok k && json_wf v = true).
  { intros Hok. rewrite Hok_k, Hwfv; [done| |].
    - eapply Hsuf; [apply consumed_suffix_of, H2|done].
    - eapply Hsuf; [apply suffix_cons_r; done|done]. }
  destruct (c =? 44).
  + destruct (parse_members f (skip_ws r4)) as [[kvs' r5]|] eqn:Hm; [|done].
    intros [= <- <-]. destruct (IHm _ _ _ Hm) as [Hc5 Hwf5].
    split; [eapply consumed_suffix_r; [exact H4|];
            eapply suffix_of_trans; [apply consumed_suffix_of, Hc5|apply skip_ws_suffix]|].
    intros Hok. cbn beta in Hwf5 |- *. rewrite json_wf_obj in Hwf5 |- *. simpl.
    rewrite Hkv by done. rewrite Hwf5; [done|].
    eapply Hsuf; [|exact Hok].
    eapply suffix_of_trans; [apply skip_ws_suffix|apply consumed_suffix_of, H4].
  + destruct (c =? 125); [|done]. intros [= <- <-]. split; [done|].
    intros Hok. simpl. by rewrite Hkv.
Qed.
End ParseInvStep.

Lemma parse_inv (n : nat) :
  (forall s, parse_ok json_wf s (parse_value n s)) /\
  (forall s, parse_ok (forallb json_wf) s (parse_elems n s)) /\
  (forall s, parse_ok (fun kvs => json_wf (JObj kvs)) s (parse_members n s)).
Proof.
  induction n as [|f (IHv & IHe & IHm)]; [repeat split; done|].
  split; [|split]; intros s.
  - by apply parse_value_inv_S.
  - by apply parse_elems_inv_S.
  - by apply parse_members_inv_S.
Qed.

Lemma parse_value_consumed (n : nat) (s r : jstr) (v : json) :
  parse_value n s = Some (v, r) -> (length r < length s)%nat.
Proof. intros H. apply consumed_length. by apply (proj1 (parse_inv n) s v r H). Qed.

Lemma parse_chars_consumed (s t r : jstr) :
  parse_chars s = Some (t, r) -> (length r < length s)%nat.
Proof. intros H. apply consumed_length. by apply (parse_chars_inv s t r H). Qed.

Lemma skip_ws_consumed (s r : jstr) (c : Z) :
  skip_ws s = c :: r -> (length r < length s)%nat.
Proof. intros H. by apply consumed_length, (skip_ws_cons s r c). Qed.

Lemma skip_ws_length (s : jstr) : (length (skip_ws s) <= length s)%nat.
Proof. apply suffix_length, skip_ws_suffix. Qed.

(** [lengths]: collect the length facts of the remainders in context. *)
Ltac lengths :=
  repeat match goal with
    | H : parse_value _ _ = Some (_, _) |- _ => apply parse_value_consumed in H
    | H : parse_chars _ = Some (_, _) |- _ => apply parse_chars_consumed in H
    | H : skip_ws _ = _ :: _ |- _ => apply skip_ws_consumed in H
    end;
  repeat match goal with
    | |- context [skip_ws ?s] =>
        lazymatch goal with
        | _ : (length (skip_ws s) <= length s)%nat |- _ => fail
        | _ => pose proof (skip_ws_length s)
        end
    end.

(** ** Fuel: two units per code unit are enough *)

(** One unfolding of [parse_elems] and [parse_members], leaving the
    recursive calls folded. *)
Lemma parse_elems_S_eq (f : nat) (s : jstr) :
  parse_elems (S f) s =
  match parse_value f s with
  | None => None
  | Some (v, r) =>
      match skip_ws r with
      | c :: r' =>
          if c =? 44 then
            match parse_elems f r' with
            | Some (vs, r'') => Some (v :: vs, r'')
            | None => None
            end
          else if c =? 93 then Some ([v], r')
          else None
      | [] => None
      end
  end.
Proof. reflexivity. Qed.

Lemma parse_members_S_eq (f : nat) (q : Z) (r : jstr) :
  parse_members (S f) (q :: r) =
  if q =? 34 then
    match parse_chars r with
    | None => None
    | Some (k, r1) =>
        match skip_ws r1 with
        | col :: r2 =>
            if col =? 58 then
              match parse_value f r2 with
              | None => None
              | Some (v, r3) =>
                  match skip_ws r3 with
                  | c :: r4 =>
                      if c =? 44 then
                        match parse_members f (skip_ws r4) with
                        | Some (kvs, r5) => Some ((k, v) :: kvs, r5)
                        | None => None
                        end
                      else if c =? 125 then Some ([(k, v)], r4)
                      else None
                  | [] => None
                  end
              end
            else None
        | [] => None
        end
    end
  else None.
Proof. reflexivity. Qed.

Section FuelStep.
(** The result does not change from the fuel [f] to [S f] on texts short
    enough for [f]. *)
Variable f : nat.
Hypothesis Hv : forall s, (2 * length s + 1 <= f)%nat -> parse_value (S f) s = parse_value f s.
Hypothesis He : forall s, (2 * length s + 2 <= f)%nat -> parse_elems (S f) s = parse_elems f s.
Hypothesis Hm : forall s, (2 * length s + 2 <= f)%nat -> parse_members (S f) s = parse_members f s.

Lemma parse_value_fuel_S (s : jstr) :
  (2 * length s + 1 <= S f)%nat -> parse_value (S (S f)) s = parse_value (S f) s.
Proof using He Hm.
  intros Hlen. cbn [parse_value]. destruct (skip_ws s) as [|c r0] eqn:Hs; [done|].
  pose proof (skip_ws_consumed _ _ _ Hs). pose proof (skip_ws_length r0).
  rewrite (He r0), (Hm (skip_ws r0)) by lia. reflexivity.
Qed.

Lemma parse_elems_fuel_S (s : jstr) :
  (2 * length s + 2 <= S f)%nat -> parse_elems (S (S f)) s = parse_elems (S f) s.
Proof using Hv He.
  intros Hlen. rewrite !parse_elems_S_eq, (Hv s) by lia.
  destruct (parse_value f s) as [[v r]|] eqn:E; [|done].
  destruct (skip_ws r) as [|c r'] eqn:Hr; [done|]. lengths.
  rewrite (He r') by lia. reflexivity.
Qed.

Lemma parse_members_fuel_S (s : jstr) :
  (2 * length s + 2 <= S f)%nat -> parse_members (S (S f)) s = parse_members (S f) s.
Proof using Hv Hm.
  intros Hlen. destruct s as [|q r0]; [done|]. rewrite !parse_members_S_eq.
  destruct (q =? 34); [|done]. cbn [length] in Hlen.
  destruct (parse_chars r0) as [[k r1]|] eqn:Hk; [|done].
  destruct (skip_ws r1) as [|col r2] eqn:Hr1; [done|].
  destruct (col =? 58); [|done]. lengths.
  rewrite (Hv r2) by lia.
  destruct (parse_value f r2) as [[v r3]|] eqn:Hr2; [|done].
  destruct (skip_ws r3) as [|c r4] eqn:Hr3; [done|]. lengths.
  rewrite (Hm (skip_ws r4)) by lia. reflexivity.
Qed.
End FuelStep.

Lemma parse_fuel_S (n : nat) :
  (forall s, (2 * length s + 1 <= n)%nat -> parse_value (S n) s = parse_value n s) /\
  (forall s, (2 * length s + 2 <= n)%nat -> parse_elems (S n) s = parse_elems n s) /\
  (forall s, (2 * length s + 2 <= n)%nat -> parse_members (S n) s = parse_members n s).
Proof.
  induction n as [|f (Hv & He & Hm)]; [repeat split; intros; lia|].
  split; [|split]; intros s Hs.
  - by apply parse_value_fuel_S.
  - by apply parse_elems_fuel_S.
  - by apply parse_members_fuel_S.
Qed.

(** ** The fuel is enough *)

(** The fuel [parse_fuel s] given to the parser is enough, since any
    larger fuel gives the same outcome.  So a [SyntaxError] from
    [json_parse_text] (the one the streaming effect throws, see
    [StreamingSelector]) is a syntax error of the text and never an
    exhausted fuel, and a value it returns is the value of the unbounded
    parser. *)
Lemma parse_value_fuel_adequate (s : jstr) (n : nat) :
  (parse_fuel s <= n)%nat -> parse_value n s = parse_value (parse_fuel s) s.
Proof.
  induction 1 as [|m Hm IH]; [done|]. rewrite <- IH.
  apply (proj1 (parse_fuel_S m)). unfold parse_fuel in Hm. lia.
Qed.
