(* ===== verification/JsonPrint.v ===== *)
(** A serializer of JSON values, as the server writes the assistant's
    envelope (spec section 3), and the round trip [JSON.parse (print j) =
    j] for every well-formed value, proved piece by piece against the
    parser of [JsonParse]. *)

From S2P Require Import Prelude JsValue Json JsonParse.

Open Scope Z_scope.

(** ** Printing *)

Definition hex_digit (n : Z) : Z := if n <? 10 then 48 + n else 87 + n.

Definition escape_unit (c : Z) : jstr :=
  if c =? 34 then [92; 34]
  else if c =? 92 then [92; 92]
  else if c =? 8 then [92; 98]
  else if c =? 12 then [92; 102]
  else if c =? 10 then [92; 110]
  else if c =? 13 then [92; 114]
  else if c =? 9 then [92; 116]
  else if c <? 32 then [92; 117; 48; 48; hex_digit (c / 16); hex_digit (c mod 16)]
  else [c].

Definition print_chars (s : jstr) : jstr := flat_map escape_unit s ++ [34].

Definition print_frac (f : option (list Z)) : jstr :=
  match f with Some ds => 46 :: ds | None => [] end.

Definition print_exp (e : option (bool * list Z)) : jstr :=
  match e with
  | Some (neg, ds) => 101 :: (if neg then [45] else []) ++ ds
  | None => []
  end.

Definition print_number (n : jnumber) : jstr :=
  (if num_neg n then [45] else []) ++ num_int n ++
  print_frac (num_frac n) ++ print_exp (num_exp n).

Fixpoint json_print (j : json) : jstr :=
  match j with
  | JNull => [110; 117; 108; 108]
  | JBool true => [116; 114; 117; 101]
  | JBool false => [102; 97; 108; 115; 101]
  | JNum n => print_number n
  | JStr s => 34 :: print_chars s
  | JArr [] => [91; 93]
  | JArr (x :: xs) =>
      91 :: json_print x ++
      (fix go (l : list json) : jstr :=
         match l with
         | [] => [93]
         | y :: l' => 44 :: json_print y ++ go l'
         end) xs
  | JObj [] => [123; 125]
  | JObj ((k, v) :: kvs) =>
      123 :: 34 :: print_chars k ++ 58 :: json_print v ++
      (fix go (l : list (jstr * json)) : jstr :=
         match l with
         | [] => [125]
         | (k', v') :: l' => 44 :: 34 :: print_chars k' ++ 58 :: json_print v' ++ go l'
         end) kvs
  end.

(** Printing of the tails of arrays and objects, as [json_print] does. *)
Fixpoint print_elems_tail (l : list json) : jstr :=
  match l with
  | [] => [93]
  | y :: l' => 44 :: json_print y ++ print_elems_tail l'
  end.

Fixpoint print_members_tail (l : list (jstr * json)) : jstr :=
  match l with
  | [] => [125]
  | (k, v) :: l' => 44 :: 34 :: print_chars k ++ 58 :: json_print v ++ print_members_tail l'
  end.

Definition value_end (r : jstr) : bool :=
  match r with
  | [] => true
  | c :: _ => (c =? 44) || (c =? 93) || (c =? 125)
  end.

Definition starts_with (P : Z -> bool) (r : jstr) : bool :=
  match r with c :: _ => P c | [] => false end.

(** ** The round trip, piece by piece *)

Lemma json_print_arr (x : json) (xs : list json) :
  json_print (JArr (x :: xs)) = 91 :: json_print x ++ print_elems_tail xs.
Proof. reflexivity. Qed.

Lemma json_print_obj (k : jstr) (v : json) (kvs : list (jstr * json)) :
  json_print (JObj ((k, v) :: kvs)) =
  123 :: 34 :: print_chars k ++ 58 :: json_print v ++ print_members_tail kvs.
Proof. reflexivity. Qed.

Lemma hex_val_digit (d : Z) : 0 <= d < 16 -> hex_val (hex_digit d) = Some d.
Proof.
  intros Hd. unfold hex_digit, hex_val.
  destruct (Z.ltb_spec d 10).
  - replace ((48 <=? 48 + d) && (48 + d <=? 57)) with true
      by (symmetry; apply andb_true_intro; split; apply Z.leb_le; lia).
    f_equal. lia.
  - replace ((48 <=? 87 + d) && (87 + d <=? 57)) with false
      by (symmetry; apply andb_false_intro2; apply Z.leb_gt; lia).
    replace ((65 <=? 87 + d) && (87 + d <=? 70)) with false
      by (symmetry; apply andb_false_intro2; apply Z.leb_gt; lia).
    replace ((97 <=? 87 + d) && (87 + d <=? 102)) with true
      by (symmetry; apply andb_true_intro; split; apply Z.leb_le; lia).
    f_equal. lia.
Qed.

(** One printed code unit is read back as that code unit. *)
Lemma parse_chars_escape_unit (c : Z) (r : jstr) :
  0 <= c -> parse_chars (escape_unit c ++ r) = cons_fst c (parse_chars r).
Proof.
  intros Hc. unfold escape_unit.
  destruct (Z.eqb_spec c 34) as [->|H34]; [done|].
  destruct (Z.eqb_spec c 92) as [->|H92]; [done|].
  destruct (Z.eqb_spec c 8) as [->|H8]; [done|].
  destruct (Z.eqb_spec c 12) as [->|H12]; [done|].
  destruct (Z.eqb_spec c 10) as [->|H10]; [done|].
  destruct (Z.eqb_spec c 13) as [->|H13]; [done|].
  destruct (Z.eqb_spec c 9) as [->|H9]; [done|].
  destruct (Z.ltb_spec c 32) as [Hlt|Hge].
  - simpl. unfold hex4.
    rewrite (hex_val_digit (c / 16)) by (split; [apply Z.div_pos|apply Z.div_lt_upper_bound]; lia).
    rewrite (hex_val_digit (c mod 16)) by (apply Z.mod_pos_bound; lia).
    simpl. do 3 f_equal. pose proof (Z.div_mod c 16). lia.
  - simpl. apply Z.eqb_neq in H34, H92. rewrite H34, H92.
    replace (c <? 32) with false by (symmetry; apply Z.ltb_ge; lia). done.
Qed.

Lemma parse_chars_print (s r : jstr) :
  code_units_ok s = true -> parse_chars (print_chars s ++ r) = Some (s, r).
Proof.
  induction s as [|c s IH]; intros Hs; [done|].
  simpl in Hs. apply andb_prop in Hs as [Hc Hs]. apply andb_prop in Hc as [Hc _].
  unfold print_chars in *. simpl. rewrite <- !app_assoc.
  rewrite parse_chars_escape_unit by (apply Z.leb_le; done).
  rewrite app_assoc, IH by done. done.
Qed.

Lemma take_digits_app (ds r : jstr) :
  digits_ok ds = true -> starts_with is_digit r = false ->
  take_digits (ds ++ r) = (ds, r).
Proof.
  intros Hds Hr. induction ds as [|c ds IH]; simpl.
  - destruct r as [|c r]; simpl in *; [done|]. by rewrite Hr.
  - simpl in Hds. apply andb_prop in Hds as [Hc Hds]. by rewrite Hc, IH.
Qed.

Lemma take_digits_app_cons (d : Z) (ds r : jstr) :
  digits_ok (d :: ds) = true -> starts_with is_digit r = false ->
  take_digits (d :: ds ++ r) = (d :: ds, r).
Proof. exact (take_digits_app (d :: ds) r). Qed.

Lemma parse_exp_part_print (e : option (bool * list Z)) (r : jstr) :
  match e with Some (_, ds) => nonempty ds && digits_ok ds | None => true end = true ->
  starts_with (fun c => is_digit c || (c =? 101) || (c =? 69)) r = false ->
  parse_exp_part (print_exp e ++ r) = Some (e, r).
Proof.
  intros He Hr.
  assert (Hd : starts_with is_digit r = false)
    by (destruct r; simpl in *; [done|]; apply orb_false_elim in Hr as [Hr _];
        apply orb_false_elim in Hr as [Hr _]; done).
  destruct e as [[neg ds]|]; simpl.
  - apply andb_prop in He as [Hne Hds].
    destruct ds as [|d ds']; [done|].
    destruct neg; simpl.
    + unfold parse_exp_digits. by rewrite (take_digits_app_cons d ds' r).
    + pose proof Hds as Hds'. simpl in Hds'. apply andb_prop in Hds' as [Hdd _].
      unfold is_digit in Hdd. bool_facts. zbool_cases.
      unfold parse_exp_digits. by rewrite (take_digits_app_cons d ds' r).
  - destruct r as [|c r]; simpl in *; [done|].
    apply orb_false_elim in Hr as [Hr H69]. apply orb_false_elim in Hr as [_ H101].
    by rewrite H101, H69.
Qed.

Lemma parse_frac_part_print (f : option (list Z)) (r : jstr) :
  match f with Some ds => nonempty ds && digits_ok ds | None => true end = true ->
  starts_with (fun c => is_digit c || (c =? 46)) r = false ->
  parse_frac_part (print_frac f ++ r) = Some (f, r).
Proof.
  intros Hf Hr. destruct f as [ds|]; cbn -[take_digits].
  - apply andb_prop in Hf as [Hne Hds]. destruct ds as [|d ds']; [done|].
    rewrite take_digits_app; [done|done|].
    destruct r; simpl in *; [done|]. by apply orb_false_elim in Hr as [-> _].
  - destruct r as [|c r]; simpl in *; [done|].
    apply orb_false_elim in Hr as [_ H46]. by rewrite H46.
Qed.

Lemma parse_int_part_print (i r : jstr) :
  int_digits_ok i = true -> starts_with is_digit r = false ->
  parse_int_part (i ++ r) = Some (i, r).
Proof.
  intros Hi Hr. destruct i as [|c i']; [done|]. cbn -[take_digits] in *.
  destruct (Z.eqb_spec c 48) as [->|H48].
  - destruct i'; [done|]. discriminate.
  - apply andb_prop in Hi as [Hc Hi']. rewrite Hc. by rewrite take_digits_app.
Qed.

(** What may follow a number: no digit, [.], [e] or [E]. *)
Definition number_follow (c : Z) : bool :=
  is_digit c || (c =? 46) || (c =? 101) || (c =? 69).

Lemma parse_number_print (n : jnumber) (r : jstr) :
  jnumber_ok n = true -> starts_with number_follow r = false ->
  parse_number (print_number n ++ r) = Some (n, r).
Proof.
  intros Hn Hr. destruct n as [neg i f e]. unfold jnumber_ok in Hn. simpl in Hn.
  apply andb_prop in Hn as [Hn He]. apply andb_prop in Hn as [Hi Hf].
  assert (Hexp : starts_with (fun c => is_digit c || (c =? 101) || (c =? 69)) r = false).
  { destruct r as [|c r]; [done|]. simpl in *. unfold number_follow in Hr.
    destruct (is_digit c), (c =? 46), (c =? 101), (c =? 69); done. }
  assert (Hfr : starts_with (fun c => is_digit c || (c =? 46)) (print_exp e ++ r) = false).
  { destruct e as [[? ?]|]; [done|]. destruct r as [|c r]; [done|]. simpl in *.
    unfold number_follow in Hr. destruct (is_digit c), (c =? 46); done. }
  assert (Hir : starts_with is_digit (print_frac f ++ print_exp e ++ r) = false).
  { destruct f; [done|]. simpl. destruct e as [[? ?]|]; [done|].
    destruct r as [|c r]; [done|]. simpl in *. unfold number_follow in Hr.
    destruct (is_digit c); done. }
  unfold print_number, parse_number. rewrite <- !app_assoc.
  destruct i as [|c i']; [done|].
  assert (Hc : is_digit c = true).
  { simpl in Hi. destruct (Z.eqb_spec c 48) as [->|]; [done|].
    by apply andb_prop in Hi as [? _]. }
  assert (Hsign : (c =? 45) = false) by (unfold is_digit in Hc; bool_facts; apply Z.eqb_neq; lia).
  destruct neg; cbn -[parse_int_part parse_frac_part parse_exp_part].
  all: try rewrite Hsign.
  all: pose proof (parse_int_part_print (c :: i') _ Hi Hir) as Hp; cbn [app] in Hp.
  all: rewrite Hp.
  all: rewrite parse_frac_part_print by done.
  all: by rewrite parse_exp_part_print.
Qed.

(** A printed value starts with a code unit that is not whitespace and
    closes no array or object. *)
Lemma json_print_cons (j : json) :
  json_wf j = true ->
  exists c t, json_print j = c :: t /\ is_ws c = false /\ (c =? 93) = false /\ (c =? 125) = false.
Proof.
  intros Hj. destruct j as [|[]|n|s|[|x xs]|[|[k v] kvs]]; simpl; eauto 6.
  unfold print_number. simpl in Hj. unfold jnumber_ok in Hj.
  apply andb_prop in Hj as [Hj _]. apply andb_prop in Hj as [Hi _].
  destruct (num_neg n); simpl; eauto 6.
  destruct (num_int n) as [|c i]; [done|]. simpl in Hi. exists c. eexists. split; [done|].
  assert (48 <= c <= 57).
  { destruct (Z.eqb_spec c 48); [lia|]. unfold is_digit in Hi. bool_facts. lia. }
  unfold is_ws. zbool_cases. done.
Qed.

Lemma skip_ws_print (j : json) (r : jstr) :
  json_wf j = true -> skip_ws (json_print j ++ r) = json_print j ++ r.
Proof.
  intros Hj. destruct (json_print_cons j Hj) as (c & t & -> & Hws & _). simpl. by rewrite Hws.
Qed.

Lemma print_elems_tail_cons (xs : list json) :
  exists c t, print_elems_tail xs = c :: t /\ ((c =? 44) || (c =? 93)) = true.
Proof. destruct xs; simpl; eauto. Qed.

Lemma print_members_tail_cons (kvs : list (jstr * json)) :
  exists c t, print_members_tail kvs = c :: t /\ ((c =? 44) || (c =? 125)) = true.
Proof. destruct kvs as [|[]]; simpl; eauto. Qed.

(** The round trip of one value, with every fuel above twice its length
    and any continuation that may follow a value. *)
Definition print_roundtrips (j : json) : Prop :=
  forall (f : nat) (r : jstr), (2 * length (json_print j) < f)%nat -> value_end r = true ->
  parse_value f (json_print j ++ r) = Some (j, r).

Lemma value_end_number_follow (r : jstr) :
  value_end r = true -> starts_with number_follow r = false.
Proof.
  destruct r as [|c r]; [done|]. simpl. unfold number_follow, is_digit.
  intros H. apply orb_prop in H as [H|H]; [apply orb_prop in H as [H|H]|];
    apply Z.eqb_eq in H; subst; done.
Qed.

Lemma parse_elems_print (x : json) (xs : list json) :
  Forall print_roundtrips (x :: xs) -> forallb json_wf (x :: xs) = true ->
  forall (f : nat) (r : jstr),
    (2 * length (json_print x ++ print_elems_tail xs) <= f)%nat -> value_end r = true ->
    parse_elems f (json_print x ++ print_elems_tail xs ++ r) = Some (x :: xs, r).
Proof.
  revert x. induction xs as [|y l IH]; intros x Hrt Hwf f r Hf Hr.
  all: inversion Hrt as [|? ? Hx Hrest]; subst.
  all: simpl in Hwf; apply andb_prop in Hwf as [Hxwf Hwf].
  all: pose proof (json_print_cons x Hxwf) as (c & t & Hpx & _).
  all: rewrite length_app, Hpx in Hf; simpl in Hf.
  all: destruct f as [|f]; [lia|].
  all: simpl; rewrite Hx; [| rewrite Hpx; simpl; lia | done].
  - done.
  - simpl. rewrite <- app_assoc, IH; [done|done|done|len_lia|done].
Qed.


Lemma parse_members_print (k : jstr) (v : json) (kvs : list (jstr * json)) :
  Forall (fun kv => print_roundtrips kv.2) ((k, v) :: kvs) ->
  forallb (fun kv => code_units_ok kv.1 && json_wf kv.2) ((k, v) :: kvs) = true ->
  forall (f : nat) (r : jstr),
    (2 * length (34%Z :: print_chars k ++ 58%Z :: json_print v ++ print_members_tail kvs) <= f)%nat ->
    value_end r = true ->
    parse_members f ((34 :: print_chars k ++ 58 :: json_print v ++ print_members_tail kvs) ++ r)
    = Some ((k, v) :: kvs, r).
Proof.
  revert k v. induction kvs as [|[k' v'] l IH]; intros k v Hrt Hwf f r Hf Hr.
  all: inversion Hrt as [|? ? Hv Hrest]; subst; simpl in Hv.
  all: simpl in Hwf; apply andb_prop in Hwf as [Hkv Hwf]; apply andb_prop in Hkv as [Hk Hvwf].
  all: destruct f as [|f]; [simpl in Hf; lia|].
  all: simpl; rewrite <- ?app_assoc, parse_chars_print by done; simpl; rewrite <- ?app_assoc.
  all: rewrite Hv; [| len_lia | done].
  - done.
  - simpl. specialize (IH k' v' Hrest Hwf f r). simpl in IH.
    rewrite IH; [done|cbn [print_members_tail] in Hf; len_lia|done].
Qed.

(** Every well-formed value is read back by [parse_value] from its
    printed form. *)
Lemma parse_value_print (j : json) : json_wf j = true -> print_roundtrips j.
Proof.
  induction j as [| b | n | s | xs IH | kvs IH] using json_ind';
    intros Hwf f r Hf Hr; destruct f as [|f]; try (simpl in Hf; lia).
  - done.
  - by destruct b.
  - simpl in Hwf. cbn [parse_value]. rewrite skip_ws_print by done.
    pose proof (json_print_cons (JNum n) Hwf) as (c & t & Hpn & _).
    pose proof (parse_number_print n r Hwf (value_end_number_follow r Hr)) as Hnum.
    change (print_number n) with (json_print (JNum n)) in Hnum.
    rewrite Hpn in Hnum |- *. cbn [app] in Hnum |- *.
    assert (Hc : 45 = c \/ is_digit c = true).
    { simpl in Hpn. unfold print_number in Hpn. unfold jnumber_ok in Hwf.
      apply andb_prop in Hwf as [Hwf _]. apply andb_prop in Hwf as [Hi _].
      destruct (num_neg n); simpl in Hpn; [left; congruence|right].
      destruct (num_int n) as [|d i]; [done|]. simpl in Hpn. injection Hpn as <- _.
      simpl in Hi. destruct (Z.eqb_spec d 48) as [->|]; [done|].
      by apply andb_prop in Hi as [? _]. }
    assert (Hnot : c <> 123 /\ c <> 91 /\ c <> 34 /\ c <> 116 /\ c <> 102 /\ c <> 110).
    { destruct Hc as [<-|Hc]; [lia|]. unfold is_digit in Hc. bool_facts. lia. }
    replace ((c =? 45) || is_digit c) with true by (destruct Hc as [<- | ->]; [done|symmetry; apply orb_true_r]).
    zbool_cases. by rewrite Hnum.
  - simpl. by rewrite parse_chars_print.
  - destruct xs as [|x xs]; [done|].
    rewrite json_print_arr in Hf |- *. rewrite json_wf_arr in Hwf.
    pose proof (json_print_cons x) as Hcons.
    pose proof Hwf as Hwf'. simpl in Hwf'. apply andb_prop in Hwf' as [Hx _].
    destruct (Hcons Hx) as (c & t & Hpx & Hws & H93 & _).
    simpl. rewrite <- app_assoc, skip_ws_print by done. rewrite Hpx. simpl. rewrite H93.
    pose proof (Forall_mp _ _ _ IH (forallb_Forall _ _ Hwf)) as IH'.
    pose proof (parse_elems_print x xs IH' Hwf f r) as He. rewrite Hpx in He. cbn [app] in He.
    rewrite He; [done|rewrite Hpx in Hf; len_lia|done].
  - destruct kvs as [|[k v] kvs]; [done|].
    rewrite json_print_obj in Hf |- *. rewrite json_wf_obj in Hwf.
    assert (IH' : Forall (fun kv => print_roundtrips kv.2) ((k, v) :: kvs)).
    { apply (Forall_mp _ _ _ IH). apply (Forall_impl _ _ _ (forallb_Forall _ _ Hwf)).
      intros [k' v'] Hkv. simpl in *. by apply andb_prop in Hkv as [_ ?]. }
    pose proof (parse_members_print k v kvs IH' Hwf f r) as Hm. cbn [app] in Hm.
    simpl. rewrite Hm; [done|len_lia|done].
Qed.


(** The printed text of a well-formed value parses back to it. *)
Lemma parse_text_print (j : json) :
  json_wf j = true -> json_parse_text (json_print j) = inr j.
Proof.
  intros Hwf. unfold json_parse_text.
  pose proof (parse_value_print j Hwf (parse_fuel (json_print j)) [])
    as H. rewrite app_nil_r in H. rewrite H; [done|unfold parse_fuel; lia|done].
Qed.

(** C4. The round trip of [JSON.parse]: a well-formed value printed and parsed
    back is the same value, with the parser's own fuel. *)
Theorem json_parse_print (j : json) :
  json_wf j = true -> JSON_parse (JsString (json_print j)) = inr j.
Proof. intros Hwf. rewrite JSON_parse_string. by apply parse_text_print. Qed.


(** The round trip on a value with every kind of member. *)
Definition sample_json : json :=
  JObj [(js_of_string "content",
         JObj [(js_of_string "responseText", JStr [72; 105; 10; 34; 1]);
               (js_of_string "n", JArr [JNum (mk_jnumber true [49; 48] (Some [53]) (Some (true, [50])));
                                       JBool false; JNull; JArr []; JObj []])])].

Lemma json_parse_print_witness :
  JSON_parse (JsString (json_print sample_json)) = inr sample_json.
Proof. apply json_parse_print. vm_compute. reflexivity. Defined.
