(* ===== verification/ChatStore.v ===== *)
(** The chat store [useChatStore] (src/store/chatStore, not part of the
    repository fragment, so modelled from the spec, section 4.2): the
    ordered message log and the [streamingMessageId] marker.  The
    component reads [messages], [streamingMessageId] and
    [setStreamingMessageId] (ChatInterface.jsx lines 13-15); the socket
    hook appends messages and resolves the assistant placeholder. *)

From S2P Require Import Prelude JsValue.

Module Store.

(** A message object [{id, role, content}]; an absent [id] is
    [undefined]. *)
Record message : Type := mk_message {
  msg_id : jsval;
  msg_role : jsval;
  msg_content : jsval
}.

#[export] Instance message_eq_dec : EqDecision message.
Proof. solve_decision. Defined.

Record state : Type := mk_state {
  messages : list message;
  streamingMessageId : jsval
}.

Definition initial : state := mk_state [] JsNull.

(** [append]: the message goes to the end; an unset id becomes the
    length of the log before the append. *)
Definition append (m : message) (s : state) : state :=
  let m' := match msg_id m with
            | JsUndefined => mk_message (JsNumber (Z.of_nat (length (messages s))))
                                        (msg_role m) (msg_content m)
            | _ => m
            end in
  mk_state (messages s ++ [m']) (streamingMessageId s).

Definition role_assistant : jsval := JsString (js_of_string "assistant").
Definition role_user : jsval := JsString (js_of_string "user").

(** [updateLast]: the content of the last message is replaced in place
    when that message is an assistant's; otherwise nothing changes. *)
Definition updateLast (c : jsval) (s : state) : state :=
  match last (messages s) with
  | Some m =>
      if js_strict_eq (msg_role m) role_assistant then
        mk_state (removelast (messages s) ++ [mk_message (msg_id m) (msg_role m) c])
                 (streamingMessageId s)
      else s
  | None => s
  end.

(** Whether [updateLast] replaces the last message, which makes a new
    [messages] array, or leaves the store as it is (the same array). *)
Definition updateLast_applies (s : state) : bool :=
  match last (messages s) with
  | Some m => js_strict_eq (msg_role m) role_assistant
  | None => false
  end.

Definition setStreamingMessageId (k : jsval) (s : state) : state :=
  mk_state (messages s) k.

(** ** Laws of the log *)

Lemma append_messages (m : message) (s : state) :
  exists m', messages (append m s) = messages s ++ [m'] /\
             msg_role m' = msg_role m /\ msg_content m' = msg_content m.
Proof.
  unfold append. destruct (msg_id m); simpl; eexists; eauto.
Qed.





Lemma updateLast_length (c : jsval) (s : state) :
  length (messages (updateLast c s)) = length (messages s).
Proof.
  unfold updateLast. destruct (last (messages s)) as [m|] eqn:Hl; [|done].
  destruct (js_strict_eq _ _); [|done]. simpl.
  apply last_Some in Hl as [l' Hl']. rewrite Hl'.
  rewrite removelast_last, !length_app. done.
Qed.

Lemma updateLast_skip (c : jsval) (s : state) :
  updateLast_applies s = false -> updateLast c s = s.
Proof. unfold updateLast_applies, updateLast. by repeat case_match. Qed.

(** An entry of the log keeps its id and role through [updateLast]: only
    the content of the last message can change. *)
Lemma updateLast_lookup_keep (c : jsval) (s : state) (i : nat) (x : message) :
  messages s !! i = Some x ->
  exists x', messages (updateLast c s) !! i = Some x' /\
             msg_id x' = msg_id x /\ msg_role x' = msg_role x.
Proof.
  intros H. unfold updateLast.
  destruct (last (messages s)) as [m|] eqn:Hl; [|eauto].
  destruct (js_strict_eq _ _); [|eauto]. simpl.
  apply last_Some in Hl as [l' Hl']. rewrite Hl' in H |- *. rewrite removelast_last.
  apply lookup_app_Some in H as [H|[Hge H]].
  - exists x. split; [by apply lookup_app_l_Some | auto].
  - apply list_lookup_singleton_Some in H as [Hi <-].
    exists (mk_message (msg_id m) (msg_role m) c).
    rewrite lookup_app_r by lia. rewrite Hi. simpl. auto.
Qed.

(** ** The store's contract, as an interface *)

(** The operations of a message log store the component uses. *)
Class MessageLog (S : Type) := {
  log_messages : S -> list message;
  log_marker : S -> jsval;
  log_append : message -> S -> S;
  log_updateLast : jsval -> S -> S;
  log_setMarker : jsval -> S -> S
}.

(** Their laws (spec 4.2): [append] adds one message at the end with the
    role and content given; [updateLast] keeps every entry's id and role;
    only the setter moves the marker. *)
Class MessageLogLaws (S : Type) `{!MessageLog S} : Prop := {
  log_append_end (m : message) (s : S) :
    exists m', log_messages (log_append m s) = log_messages s ++ [m'] /\
               msg_role m' = msg_role m /\ msg_content m' = msg_content m;
  log_append_marker (m : message) (s : S) : log_marker (log_append m s) = log_marker s;
  log_updateLast_keep (c : jsval) (s : S) (i : nat) (x : message) :
    log_messages s !! i = Some x ->
    exists x', log_messages (log_updateLast c s) !! i = Some x' /\
               msg_id x' = msg_id x /\ msg_role x' = msg_role x;
  log_updateLast_marker (c : jsval) (s : S) : log_marker (log_updateLast c s) = log_marker s;
  log_setMarker_messages (k : jsval) (s : S) : log_messages (log_setMarker k s) = log_messages s;
  log_setMarker_marker (k : jsval) (s : S) : log_marker (log_setMarker k s) = k
}.

#[export] Instance store_log : MessageLog state := {|
  log_messages := messages;
  log_marker := streamingMessageId;
  log_append := append;
  log_updateLast := updateLast;
  log_setMarker := setStreamingMessageId
|}.

#[export] Instance store_log_laws : MessageLogLaws state.
Proof.
  split; simpl.
  - apply append_messages.
  - done.
  - apply updateLast_lookup_keep.
  - intros c s. unfold updateLast. by repeat case_match.
  - done.
  - done.
Qed.

End Store.
