(* ===== verification/SocketStore.v ===== *)
(** The socket store [useSocketStore] and the connection manager behind
    [useChatSocket] (src/store/socketStore and src/hooks/useChatSocket,
    not part of the repository fragment, so modelled from the spec,
    sections 3, 4.1 and 7): the connection status, the flag
    [isConnected] the component reads (ChatInterface.jsx lines 16-17),
    the target the connection is attached to, the connection the store
    holds and the transport's open connections, [send], which delivers
    only while connected, and the invariant [conn_inv] that [connect],
    [disconnect] and [retarget] keep: the only open connection is the
    one the store holds. *)

From S2P Require Import Prelude JsValue Json.

Module Socket.

Inductive conn_status : Type :=
  | Connected
  | Connecting
  | Disconnected
  | Reconnecting.

#[export] Instance conn_status_eq_dec : EqDecision conn_status.
Proof. solve_decision. Defined.

(** The string the store exposes as [connectionStatus]. *)
Definition status_string (c : conn_status) : jstr :=
  match c with
  | Connected => js_of_string "connected"
  | Connecting => js_of_string "connecting"
  | Disconnected => js_of_string "disconnected"
  | Reconnecting => js_of_string "reconnecting"
  end.

Record state : Type := mk_state {
  isConnected : bool;
  connectionStatus : conn_status;
  attached : json;           (** the equipment, [null] when detached *)
  delivered : list jstr;     (** the texts sent so far *)
  socket_conn : option nat;  (** the connection the store holds *)
  open_conns : list nat;     (** the transport's connections not closed *)
  next_conn : nat            (** the number of the next connection *)
}.

(** [onStateChange(newState)]: the status and the flag move together. *)
Definition setStatus (c : conn_status) (s : state) : state :=
  mk_state (bool_decide (c = Connected)) c (attached s) (delivered s)
           (socket_conn s) (open_conns s) (next_conn s).

(** The transport closes connection [c], if any. *)
Definition close_conn (c : option nat) (open : list nat) : list nat :=
  match c with
  | Some c => filter (fun c' => c' <> c) open
  | None => open
  end.

(** [connect(target)]: a valid (truthy) target opens a new connection,
    which starts connecting; an invalid target opens nothing and fails
    silently into [disconnected]. *)
Definition connect (target : json) (s : state) : state :=
  if json_truthy target
  then mk_state false Connecting target (delivered s)
                (Some (next_conn s)) (next_conn s :: open_conns s) (S (next_conn s))
  else mk_state false Disconnected JNull (delivered s) None (open_conns s) (next_conn s).

(** [disconnect()]: the connection the store holds is closed and
    released. *)
Definition disconnect (s : state) : state :=
  mk_state false Disconnected JNull (delivered s) None
           (close_conn (socket_conn s) (open_conns s)) (next_conn s).

(** [send(text)]: delivered only while connected; otherwise a no-op that
    reports no delivery. *)
Definition send (text : jstr) (s : state) : bool * state :=
  if isConnected s then (true, mk_state (isConnected s) (connectionStatus s) (attached s)
                                        (delivered s ++ [text]) (socket_conn s)
                                        (open_conns s) (next_conn s))
  else (false, s).

(** [useChatSocket(equipment)] when [equipment] changes: React runs the
    cleanup of the previous effect, which releases the old connection,
    before the new effect attaches the new one. *)
Definition retarget (equipment : json) (s : state) : state :=
  connect equipment (disconnect s).

(** The status and the flag agree. *)
Definition consistent (s : state) : bool :=
  Bool.eqb (isConnected s) (bool_decide (connectionStatus s = Connected)).

Inductive event : Type :=
  | EvStatus (c : conn_status)
  | EvRetarget (equipment : json)
  | EvDisconnect
  | EvSend (text : jstr).

Definition step (s : state) (e : event) : state :=
  match e with
  | EvStatus c => setStatus c s
  | EvRetarget eq => retarget eq s
  | EvDisconnect => disconnect s
  | EvSend t => snd (send t s)
  end.

(** At most one connection is open, the one the store holds, and the
    store holds one exactly when it is attached to a target. *)
Definition conn_inv (s : state) : Prop :=
  open_conns s = option_list (socket_conn s) /\ (socket_conn s = None <-> attached s = JNull).

Lemma step_consistent (s : state) (e : event) :
  consistent s = true -> consistent (step s e) = true.
Proof.
  unfold consistent. intros H. destruct e as [c|eq| |t]; simpl.
  - by destruct (bool_decide (c = Connected)).
  - unfold retarget, connect. by destruct (json_truthy eq).
  - done.
  - unfold send. destruct (isConnected s) eqn:E; simpl in *; rewrite ?E; done.
Qed.

Lemma disconnect_open (s : state) : conn_inv s -> open_conns (disconnect s) = [].
Proof.
  intros [Ho _]. simpl. rewrite Ho.
  destruct (socket_conn s); simpl; [by rewrite filter_cons_False by naive_solver|done].
Qed.

Lemma disconnect_conn_inv (s : state) : conn_inv s -> conn_inv (disconnect s).
Proof. intros H. split; [by rewrite disconnect_open|done]. Qed.

Lemma retarget_conn_inv (e : json) (s : state) : conn_inv s -> conn_inv (retarget e s).
Proof.
  intros H. pose proof (disconnect_open s H) as Ho. unfold retarget, connect.
  destruct (json_truthy e) eqn:Et; (split; cbn [open_conns socket_conn attached];
    [by rewrite Ho|]); [|done].
  split; [done|intros ->; discriminate].
Qed.

Lemma setStatus_conn_inv (c : conn_status) (s : state) : conn_inv s -> conn_inv (setStatus c s).
Proof. done. Qed.

(** The flag [isConnected] is set only while a connection is held. *)
Definition conn_live (s : state) : Prop := isConnected s = true -> is_Some (socket_conn s).

Lemma retarget_conn_live (e : json) (s : state) : conn_live (retarget e s).
Proof. unfold conn_live, retarget, connect. by case_match. Qed.

Lemma step_conn_inv (s : state) (e : event) : conn_inv s -> conn_inv (step s e).
Proof.
  intros H. destruct e as [c|eq| |t]; simpl.
  - done.
  - by apply retarget_conn_inv.
  - by apply disconnect_conn_inv.
  - unfold send. by destruct (isConnected s).
Qed.
End Socket.

Module SocketFacts.
Import Socket.

(** Spec property 8: in a state where the status and the flag agree,
    a [send] while the status is not [connected] is rejected, reports no
    delivery, and changes nothing. *)
Theorem send_rejected_unless_connected (s : state) (t : jstr) :
  consistent s = true -> connectionStatus s <> Connected ->
  send t s = (false, s).
Proof.
  unfold consistent, send. intros Hc Hne.
  rewrite bool_decide_eq_false_2 in Hc by done.
  destruct (isConnected s); [discriminate|done].
Qed.

(** Spec scenario 8: [connected -> disconnected], then [send]. *)
Lemma send_rejected_unless_connected_witness :
  send (js_of_string "hello") (setStatus Disconnected (mk_state true Connected JNull [] None [] 0))
  = (false, setStatus Disconnected (mk_state true Connected JNull [] None [] 0)).
Proof.
  apply send_rejected_unless_connected; [reflexivity | discriminate].
Defined.
End SocketFacts.
