(* ===== verification/StreamingSelector.v ===== *)
(** The streaming effect of ChatInterface.jsx, lines 42-53: after every
    change of [messages], when the last message is an assistant's whose
    parsed content has a [responseText] other than ["loading"], the
    component calls [setStreamingMessageId(lastMessage.id ||
    messages.length - 1)].  The effect is a function of the message list
    to [exn + option jsval]: the exception it throws, the marker it sets,
    or [None] when it sets nothing. *)

From S2P Require Import Prelude JsValue Json JsonParse JsonPrint ChatStore.
Import Store.

Module StreamingSelector.

Definition key_content : jstr := js_of_string "content".
Definition key_responseText : jstr := js_of_string "responseText".
Definition placeholder : jstr := js_of_string "loading".

(** [v === s] for a property value and a string: only a JSON string with
    the same code units. *)
Definition pvalue_strict_eq_string (v : pvalue) (s : jstr) : bool :=
  match v with
  | Some (JStr t) => bool_decide (t = s)
  | _ => false
  end.

(** Lines 46-51: the body run on [lastMessage], with [messages.length]
    as [len].  [JSON.parse] and the two property reads can throw. *)
Definition effect_on_last (lastMessage : message) (len : nat) : exn + option jsval :=
  if js_strict_eq (msg_role lastMessage) role_assistant then
    parsedMessage <-? JSON_parse (msg_content lastMessage) ;;
    content <-? get_prop (Some parsedMessage) key_content ;;
    responseText <-? get_prop content key_responseText ;;
    if negb (pvalue_strict_eq_string responseText placeholder) then
      inr (Some (js_or (msg_id lastMessage) (JsNumber (Z.of_nat len - 1))))
    else inr None
  else inr None.

(** Lines 43-53: the guard [messages.length > 0] and the read of
    [messages[messages.length - 1]] (a [TypeError] if it were missing). *)
Definition streaming_effect (messages : list message) : exn + option jsval :=
  if (0 <? length messages)%nat then
    match messages !! (length messages - 1)%nat with
    | None => inl TypeError
    | Some lastMessage => effect_on_last lastMessage (length messages)
    end
  else inr None.

(** The effect applied to the store: the marker is set when the effect
    calls the setter, and left alone otherwise. *)
Definition run_effect (s : state) : exn + state :=
  match streaming_effect (messages s) with
  | inl e => inl e
  | inr (Some k) => inr (setStreamingMessageId k s)
  | inr None => inr s
  end.

(** The serialized envelope an assistant message carries (spec, section
    3): [{"content": {"responseText": r}}]. *)
Definition envelope (r : jstr) : json :=
  JObj [(key_content, JObj [(key_responseText, JStr r)])].

Definition envelope_text (r : jstr) : jsval := JsString (json_print (envelope r)).

(** ** Equations *)

(** [messages[messages.length - 1]] under the guard [messages.length > 0]
    is the last message: the [TypeError] branch is dead. *)
Lemma streaming_effect_last (msgs : list message) :
  streaming_effect msgs =
  match last msgs with
  | None => inr None
  | Some m => effect_on_last m (length msgs)
  end.
Proof.
  unfold streaming_effect. destruct (last msgs) as [m|] eqn:Hl.
  - rewrite (last_index_lookup _ _ Hl).
    apply last_Some in Hl as [l' ->]. rewrite length_app. simpl.
    replace (0 <? length l' + 1)%nat with true by (symmetry; apply Nat.ltb_lt; lia).
    done.
  - apply last_None in Hl as ->. done.
Qed.

(** The member [content] of a parsed value, when it is an object. *)
Definition content_member (j : json) : option json :=
  match j with
  | JObj kvs => assoc_last key_content kvs
  | _ => None
  end.

Lemma JSON_parse_error (v : jsval) (e : exn) : JSON_parse v = inl e -> e = SyntaxError.
Proof.
  unfold JSON_parse, json_parse_text.
  destruct (parse_value _ _) as [[j r]|]; [destruct (skip_ws r)|]; congruence.
Qed.

Lemma envelope_wf (r : jstr) : code_units_ok r = true -> json_wf (envelope r) = true.
Proof.
  intros Hr. simpl. rewrite Hr. done.
Qed.

(** The serialized envelope parses back to itself. *)
Lemma JSON_parse_envelope (r : jstr) :
  code_units_ok r = true -> JSON_parse (envelope_text r) = inr (envelope r).
Proof.
  intros Hr. unfold envelope_text.
  by rewrite JSON_parse_string, parse_text_print by (by apply envelope_wf).
Qed.

Lemma envelope_response (r : jstr) (m : message) (len : nat) :
  code_units_ok r = true ->
  js_strict_eq (msg_role m) role_assistant = true ->
  msg_content m = envelope_text r ->
  effect_on_last m len =
  if bool_decide (r = placeholder) then inr None
  else inr (Some (js_or (msg_id m) (JsNumber (Z.of_nat len - 1)))).
Proof.
  intros Hr Hrole Hc. unfold effect_on_last. rewrite Hrole, Hc, JSON_parse_envelope by done.
  simpl. by destruct (bool_decide (r = placeholder)).
Qed.

(** ** Properties of the effect *)

(** C1. When the last message is an assistant message whose content is
    the serialized envelope of a response other than the placeholder
    ["loading"], the effect sets the marker to [lastMessage.id ||
    messages.length - 1]. *)
Theorem streaming_effect_sets_marker (msgs : list message) (m : message) (r : jstr) :
  last msgs = Some m -> msg_role m = role_assistant ->
  msg_content m = envelope_text r -> code_units_ok r = true -> r <> placeholder ->
  streaming_effect msgs =
  inr (Some (js_or (msg_id m) (JsNumber (Z.of_nat (length msgs) - 1)))).
Proof.
  intros Hl Hrole Hc Hr Hne. rewrite streaming_effect_last, Hl.
  unfold effect_on_last. rewrite Hrole, Hc, JSON_parse_envelope by done. simpl.
  by rewrite ?bool_decide_eq_false_2.
Qed.

(** C5. While the last assistant message still carries the placeholder
    ["loading"], the effect sets nothing. *)
Theorem streaming_effect_placeholder (msgs : list message) (m : message) :
  last msgs = Some m -> msg_role m = role_assistant ->
  msg_content m = envelope_text placeholder ->
  streaming_effect msgs = inr None.
Proof.
  intros Hl Hrole Hc. rewrite streaming_effect_last, Hl.
  unfold effect_on_last. rewrite Hrole, Hc, JSON_parse_envelope by (auto with chat).
  done.
Qed.

(** C11. When the log is empty or its last message is not an assistant's,
    the effect sets nothing and throws nothing. *)
Theorem streaming_effect_inert (msgs : list message) :
  (forall m, last msgs = Some m -> js_strict_eq (msg_role m) role_assistant = false) ->
  streaming_effect msgs = inr None.
Proof.
  intros H. rewrite streaming_effect_last.
  destruct (last msgs) as [m|] eqn:Hl; [|done].
  unfold effect_on_last. by rewrite H.
Qed.

(** C12. A last assistant message whose content is not JSON text makes
    the effect throw [SyntaxError]. *)
Theorem streaming_effect_unparsable (msgs : list message) (m : message) :
  last msgs = Some m -> js_strict_eq (msg_role m) role_assistant = true ->
  (forall j, JSON_parse (msg_content m) <> inr j) ->
  streaming_effect msgs = inl SyntaxError.
Proof.
  intros Hl Hrole Hp. rewrite streaming_effect_last, Hl. unfold effect_on_last.
  rewrite Hrole. destruct (JSON_parse (msg_content m)) as [e|j] eqn:E.
  - apply JSON_parse_error in E as ->. done.
  - by destruct (Hp j).
Qed.

(** C13. A last assistant message whose content parses to a value
    without a [content] member, or with [content: null], makes the
    effect throw [TypeError] at [.responseText]. *)
Theorem streaming_effect_no_content (msgs : list message) (m : message) (j : json) :
  last msgs = Some m -> js_strict_eq (msg_role m) role_assistant = true ->
  JSON_parse (msg_content m) = inr j ->
  content_member j = None \/ content_member j = Some JNull ->
  streaming_effect msgs = inl TypeError.
Proof.
  intros Hl Hrole Hp Hc. rewrite streaming_effect_last, Hl. unfold effect_on_last.
  rewrite Hrole, Hp. simpl.
  destruct j as [| | | | |kvs]; simpl in Hc |- *; try done.
  by destruct Hc as [-> | ->].
Qed.

(** The only marker the effect ever sets is the identity of the last
    message, an assistant's: [lastMessage.id || messages.length - 1]. *)
Lemma streaming_effect_some_inv (msgs : list message) (k : jsval) :
  streaming_effect msgs = inr (Some k) ->
  exists m, last msgs = Some m /\
    js_strict_eq (msg_role m) role_assistant = true /\
    k = js_or (msg_id m) (JsNumber (Z.of_nat (length msgs) - 1)).
Proof.
  rewrite streaming_effect_last. destruct (last msgs) as [m|]; [|done].
  unfold effect_on_last. destruct (js_strict_eq _ _) eqn:Hrole; [|done].
  intros H. exists m. split; [done|split; [done|]].
  repeat match goal with
         | H : sum_bind ?c _ = _ |- _ => destruct c; simpl in H; [discriminate|]
         end.
  destruct (negb _); congruence.
Qed.


(** ** Witnesses on the spec's scenarios *)

Definition msg_user_hello : message :=
  mk_message JsUndefined role_user (JsString (js_of_string "hello")).

Definition msg_assistant (r : jstr) : message :=
  mk_message JsUndefined role_assistant (envelope_text r).

Definition reply : jstr := js_of_string "Hi there".

(** Scenario 7: after the placeholder is resolved to "Hi there", the
    marker is the last message's ordinal, 1. *)
Lemma streaming_effect_sets_marker_witness :
  streaming_effect [msg_user_hello; msg_assistant reply] = inr (Some (JsNumber 1)).
Proof.
  apply (streaming_effect_sets_marker [msg_user_hello; msg_assistant reply] (msg_assistant reply) reply);
    [reflexivity | reflexivity | reflexivity | reflexivity | vm_compute; discriminate].
Defined.

(** Scenario 6: the placeholder sets no marker. *)
Lemma streaming_effect_placeholder_witness :
  streaming_effect [msg_user_hello; msg_assistant placeholder] = inr None.
Proof.
  apply (streaming_effect_placeholder [msg_user_hello; msg_assistant placeholder] (msg_assistant placeholder));
    reflexivity.
Defined.

(** Scenario 5: a log holding one user message sets no marker. *)
Lemma streaming_effect_inert_witness :
  streaming_effect [msg_user_hello] = inr None.
Proof.
  apply streaming_effect_inert. intros m Hm. injection Hm as <-. reflexivity.
Defined.

(** Plain text from the assistant is not JSON: [SyntaxError]. *)
Lemma streaming_effect_unparsable_witness :
  streaming_effect [msg_user_hello;
                    mk_message JsUndefined role_assistant (JsString reply)]
  = inl SyntaxError.
Proof.
  apply (streaming_effect_unparsable _ (mk_message JsUndefined role_assistant (JsString reply)));
    [reflexivity | reflexivity | intros j; vm_compute; discriminate].
Defined.

(** The content ["{}"] has no [content] member: [TypeError]. *)
Lemma streaming_effect_no_content_witness :
  streaming_effect [mk_message JsUndefined role_assistant (JsString (js_of_string "{}"))]
  = inl TypeError.
Proof.
  apply (streaming_effect_no_content _
           (mk_message JsUndefined role_assistant (JsString (js_of_string "{}"))) (JObj []));
    [reflexivity | reflexivity | vm_compute; reflexivity | left; reflexivity].
Defined.


(** C26. Line 49 on machine numbers: with the array-length bound of
    ECMA-262, the marker the effect sets is either the truthy [id] of the
    last message or the integer [messages.length - 1], which lies in
    [[0, 2^32 - 2]] and is therefore computed exactly by the double
    subtraction (it is a safe integer). *)
Theorem streaming_marker_bounds (msgs : list message) (k : jsval) :
  Z.of_nat (length msgs) <= max_array_length ->
  streaming_effect msgs = inr (Some k) ->
  (exists m, last msgs = Some m /\ js_truthy (msg_id m) = true /\ k = msg_id m) \/
  (exists n, k = JsNumber n /\ n = Z.of_nat (length msgs) - 1 /\
             0 <= n <= max_array_length - 1 /\ n <= max_safe_integer).
Proof.
  intros Hlen (m & Hl & _ & ->)%streaming_effect_some_inv. unfold js_or.
  destruct (js_truthy (msg_id m)) eqn:Ht; [left; by exists m|right].
  assert (0 < length msgs)%nat by (destruct msgs; [done|simpl; lia]).
  eexists. split; [reflexivity|]. unfold max_array_length, max_safe_integer in *. lia.
Qed.

(** The reply of spec scenario 7 has no id: the marker is the index 1. *)
Lemma streaming_marker_bounds_witness :
  let msgs := [msg_user_hello; msg_assistant reply] in
  (exists m, last msgs = Some m /\ js_truthy (msg_id m) = true /\ JsNumber 1 = msg_id m) \/
  (exists n, JsNumber 1 = JsNumber n /\ n = Z.of_nat (length msgs) - 1 /\
             0 <= n <= max_array_length - 1 /\ n <= max_safe_integer).
Proof.
  apply streaming_marker_bounds; [unfold max_array_length; simpl; lia|vm_compute; reflexivity].
Defined.

End StreamingSelector.
