(* ===== verification/EquipmentFetch.v ===== *)
(** The equipment lookup of ChatInterface.jsx: the React state
    [equipment] / [loading] (lines 18-19) and the effect of lines 23-36,
    which on every change of the route parameters [industryName] and
    [equipmentName] (line 20) sends [api.get] on the URL of line 26 and,
    when the request settles, runs [setEquipment(response.data)] (or
    [setEquipment(null)] on a rejection) and then [setLoading(false)].
    The effect has no cleanup: a request that settles after the parameters
    changed is applied all the same.  Requests in flight are explicit, and
    their settling is an event that may come in any order. *)

From S2P Require Import Prelude JsValue Json.

Module EquipmentFetch.

(** [useParams()]: the two route parameters, strings or [undefined]. *)
Record params : Type := mk_params {
  industryName : jsval;
  equipmentName : jsval
}.

#[export] Instance params_eq_dec : EqDecision params.
Proof. solve_decision. Defined.

(** Line 26: the template literal, with [ToString] of each parameter and
    no URL encoding. *)
Definition check_equipment_url (p : params) : jstr :=
  js_of_string "/industry-equipment/check-equipment?industry=" ++
  js_to_string (industryName p) ++
  js_of_string "&equipment=" ++
  js_to_string (equipmentName p).

(** How [api.get] settles: fulfilled with [response.data], or rejected. *)
Inductive response : Type :=
  | Fulfilled (data : json)
  | Rejected.

Record state : Type := mk_state {
  equipment : json;                 (** [useState(null)] *)
  loading : bool;                   (** [useState(true)] *)
  pending : list (nat * jstr);      (** requests in flight: number, URL *)
  next_request : nat
}.

Definition initial : state := mk_state JNull true [] 0.

(** Lines 24-26, 35: [fetchEquipments()] sends the request. *)
Definition start_fetch (p : params) (s : state) : state :=
  mk_state (equipment s) (loading s)
           (pending s ++ [(next_request s, check_equipment_url p)])
           (S (next_request s)).

(** Lines 27-33: the continuation after [await], for request [req]. *)
Definition settle (req : nat) (r : response) (s : state) : state :=
  if bool_decide (req ∈ (pending s).*1) then
    let equipment' := match r with
                      | Fulfilled data => data   (* setEquipment(response.data) *)
                      | Rejected => JNull        (* setEquipment(null) *)
                      end in
    mk_state equipment' false                    (* finally: setLoading(false) *)
             (filter (fun q => q.1 <> req) (pending s)) (next_request s)
  else s.

Inductive event : Type :=
  | FetchStart (p : params)
  | FetchSettle (req : nat) (r : response).

Definition step (s : state) (e : event) : state :=
  match e with
  | FetchStart p => start_fetch p s
  | FetchSettle req r => settle req r s
  end.

Definition run (s : state) (es : list event) : state := foldl step s es.

(** The states the effect can reach from the first render. *)
Inductive reachable : state -> Prop :=
  | reachable_initial : reachable initial
  | reachable_step s e : reachable s -> reachable (step s e).

(** The invariant of the reachable states: requests in flight have
    distinct numbers below the next one, and while [loading] holds no
    request has settled, so [equipment] is still [null]. *)
Definition inv (s : state) : Prop :=
  NoDup (pending s).*1 /\
  Forall (fun q => (q.1 < next_request s)%nat) (pending s) /\
  (loading s = true -> equipment s = JNull).

Lemma inv_initial : inv initial.
Proof. repeat split; constructor. Qed.

Lemma inv_step (s : state) (e : event) : inv s -> inv (step s e).
Proof.
  intros (Hnd & Hlt & Hload). destruct e as [p|req r]; simpl.
  - unfold start_fetch, inv; simpl. repeat split.
    + rewrite fmap_app. apply NoDup_app. repeat split; [done| |apply NoDup_singleton].
      intros x Hx Hx'. apply list_elem_of_singleton in Hx'. simpl in Hx'. subst x.
      apply list_elem_of_fmap in Hx as (q & Hq1 & Hq).
      rewrite Forall_forall in Hlt. specialize (Hlt q Hq). lia.
    + apply Forall_app. split; [|constructor; [simpl; lia|constructor]].
      eapply Forall_impl; [exact Hlt|]. simpl. lia.
    + exact Hload.
  - unfold settle. case_bool_decide; [|done]. unfold inv; simpl. repeat split.
    + eapply sublist_NoDup; [exact Hnd|]. apply fmap_sublist, sublist_filter.
    + rewrite Forall_forall in Hlt |- *. intros q Hq.
      apply list_elem_of_filter in Hq as [_ Hq]. by apply Hlt.
    + by destruct r.
Qed.

Lemma reachable_inv (s : state) : reachable s -> inv s.
Proof. induction 1; [apply inv_initial | by apply inv_step]. Qed.

(** A request in flight that settles with data makes it the equipment. *)
Lemma settle_fulfilled (s : state) (q : nat) (d : json) :
  q ∈ (pending s).*1 -> equipment (settle q (Fulfilled d) s) = d.
Proof. intros Hq. unfold settle. by rewrite bool_decide_eq_true_2. Qed.

(** Settling one request leaves the others in flight. *)
Lemma settle_keeps_pending (s : state) (q q' : nat) (r : response) :
  q ∈ (pending s).*1 -> q <> q' -> q ∈ (pending (settle q' r s)).*1.
Proof.
  intros Hq Hne. unfold settle. case_bool_decide; [|done]. simpl.
  apply list_elem_of_fmap in Hq as (x & -> & Hx).
  apply list_elem_of_fmap. exists x. split; [done|].
  apply list_elem_of_filter. split; [simpl; congruence|done].
Qed.

(** Settling a request in flight removes it, and only it, and ends the
    loading state. *)
Lemma settle_pending (s : state) (q : nat) (r : response) :
  q ∈ (pending s).*1 ->
  (pending (settle q r s)).*1 = filter (fun x => x <> q) (pending s).*1 /\
  loading (settle q r s) = false.
Proof.
  intros Hq. unfold settle. rewrite bool_decide_eq_true_2 by done. simpl.
  split; [apply fmap_filter_fst|done].
Qed.

(** The requests in flight settling one by one, in the order [order]. *)
Definition settle_all (order : list nat) (resp : nat -> response) : list event :=
  map (fun q => FetchSettle q (resp q)) order.

Lemma run_settle_all (s : state) (order : list nat) (resp : nat -> response) :
  reachable s -> order ≡ₚ (pending s).*1 ->
  pending (run s (settle_all order resp)) = [] /\
  (loading s = false \/ order <> [] -> loading (run s (settle_all order resp)) = false).
Proof.
  revert s. induction order as [|q order IH]; intros s Hr Hp; simpl.
  - apply Permutation_nil in Hp. apply fmap_nil_inv in Hp.
    split; [done|]. by intros [?|?].
  - assert (Hq : q ∈ (pending s).*1) by (rewrite <- Hp; apply elem_of_cons; by left).
    destruct (settle_pending s q (resp q) Hq) as [Hs1 Hl1].
    destruct (reachable_inv s Hr) as (Hnd & _ & _).
    destruct (IH (settle q (resp q) s)) as [Hnil Hload].
    + by apply (reachable_step s (FetchSettle q (resp q))).
    + rewrite Hs1. apply (Permutation_cons_inv (a := q)).
      rewrite Hp. by apply NoDup_perm_filter_ne.
    + split; [done|]. intros _. apply Hload. by left.
Qed.

End EquipmentFetch.

Module EquipmentFetchFacts.
Import EquipmentFetch.

Definition amp_equipment : jstr := js_of_string "&equipment=".

(** C23. The URL of line 26 does not separate the two parameters: an
    industry name containing ["&equipment="] and the equipment name
    after it give the same request as the prefix of that industry name
    with the rest moved into the equipment name. *)
Theorem check_equipment_url_ambiguous (a b c : jstr) :
  check_equipment_url (mk_params (JsString (a ++ amp_equipment ++ b)) (JsString c)) =
  check_equipment_url (mk_params (JsString a) (JsString (b ++ amp_equipment ++ c))).
Proof. unfold check_equipment_url. simpl. by rewrite <- !app_assoc. Qed.

(** C20. [loading] starts [true] and, once a request has settled, is never
    set back to [true]: a change of route parameters issues a new request
    without showing a loading state again. *)
Theorem loading_never_reset (s : state) (es : list event) :
  loading s = false -> loading (run s es) = false.
Proof.
  revert s. induction es as [|e es IH]; intros s Hs; [done|].
  simpl. apply IH. destruct e as [p|req r]; simpl; [done|].
  unfold settle. by case_bool_decide.
Qed.

Lemma loading_never_reset_witness :
  loading (run (mk_state (JObj []) false [] 1)
               [FetchStart (mk_params (JsString (js_of_string "a")) (JsString (js_of_string "b")))])
  = false.
Proof. apply loading_never_reset. reflexivity. Defined.

(** C19. Requests settle in any order and none is cancelled: when the
    newer request settles first and the older one after it, the older
    response is the equipment that stays. *)
Theorem late_response_overwrites (s : state) (older newer : nat) (d_old d_new : json) :
  older ∈ (pending s).*1 -> older <> newer ->
  equipment (settle older (Fulfilled d_old) (settle newer (Fulfilled d_new) s)) = d_old.
Proof. intros Hold Hne. by apply settle_fulfilled, settle_keeps_pending. Qed.

Definition params_a : params := mk_params (JsString (js_of_string "energy")) (JsString (js_of_string "pump")).
Definition params_b : params := mk_params (JsString (js_of_string "energy")) (JsString (js_of_string "valve")).

(** The route goes from [params_a] to [params_b]; the answer for
    [params_b] arrives first, then the late answer for [params_a]: the
    component keeps the equipment of [params_a]. *)
Lemma late_response_overwrites_witness :
  equipment (run initial [FetchStart params_a; FetchStart params_b;
                          FetchSettle 1 (Fulfilled (JStr (js_of_string "valve")));
                          FetchSettle 0 (Fulfilled (JStr (js_of_string "pump")))])
  = JStr (js_of_string "pump").
Proof.
  apply (late_response_overwrites (run initial [FetchStart params_a; FetchStart params_b]) 0 1);
    [vm_compute; left | lia].
Defined.

(** C22. A rejected lookup sets the equipment to [null] and ends the
    loading state, whatever was shown before. *)
Theorem settle_rejected (s : state) (req : nat) :
  req ∈ (pending s).*1 ->
  equipment (settle req Rejected s) = JNull /\ loading (settle req Rejected s) = false.
Proof. intros H. unfold settle. by rewrite bool_decide_eq_true_2. Qed.

Lemma settle_rejected_witness :
  equipment (settle 0 Rejected (start_fetch params_a initial)) = JNull /\
  loading (settle 0 Rejected (start_fetch params_a initial)) = false.
Proof. apply settle_rejected. vm_compute. left. Defined.

(** C21. In every reachable state, while [loading] holds the equipment is
    still the initial [null]. *)
Theorem loading_implies_no_equipment (s : state) :
  reachable s -> loading s = true -> equipment s = JNull.
Proof. intros Hr. apply (reachable_inv s Hr). Qed.

(** C7. Progress of the lookup: from every reachable state with requests
    in flight, once each of them settles, in any order and with any
    outcome, no request is left and the loading state is over, so the
    component shows the chat or the /404 redirect. *)
Theorem settled_requests_end_loading (s : state) (order : list nat) (resp : nat -> response) :
  reachable s -> pending s <> [] -> order ≡ₚ (pending s).*1 ->
  pending (run s (settle_all order resp)) = [] /\ loading (run s (settle_all order resp)) = false.
Proof.
  intros Hr Hne Hp. destruct (run_settle_all s order resp Hr Hp) as [Hnil Hload].
  split; [done|]. apply Hload. right. intros ->.
  apply Permutation_nil, fmap_nil_inv in Hp. done.
Qed.

(** Two requests, for [params_a] and then [params_b], settle newest
    first, the first one rejected. *)
Lemma settled_requests_end_loading_witness :
  pending (run (run initial [FetchStart params_a; FetchStart params_b])
               (settle_all [1%nat; 0%nat] (fun q => if bool_decide (q = 0%nat) then Rejected else Fulfilled JNull))) = [] /\
  loading (run (run initial [FetchStart params_a; FetchStart params_b])
               (settle_all [1%nat; 0%nat] (fun q => if bool_decide (q = 0%nat) then Rejected else Fulfilled JNull))) = false.
Proof.
  apply settled_requests_end_loading.
  - apply (reachable_step _ (FetchStart params_b)), (reachable_step _ (FetchStart params_a)).
    apply reachable_initial.
  - vm_compute. discriminate.
  - vm_compute. apply Permutation_swap.
Defined.

Lemma loading_implies_no_equipment_witness :
  equipment (start_fetch params_a initial) = JNull.
Proof.
  apply loading_implies_no_equipment;
    [apply (reachable_step initial (FetchStart params_a)), reachable_initial | reflexivity].
Defined.
End EquipmentFetchFacts.
