(* ===== verification/ChatView.v ===== *)
(** The screen ChatInterface renders, lines 57-89: the redirect to /404
    when loading is over and there is no equipment (57-59), the "chat
    unavailable" notice (64-67), or the message list (70-84) with one row
    per message keyed by [message.id || index] and flagged streaming when
    that key is [=== streamingMessageId] (73-77), a trailing skeleton when
    the last message is the user's (78), a lone skeleton for an empty log
    (81), and the send form given the equipment (85). *)

From S2P Require Import Prelude JsValue Json JsonParse JsonPrint ChatStore SocketStore StreamingSelector.
Import Store Socket StreamingSelector.

Module ChatView.

Record row : Type := mk_row {
  row_key : jsval;
  row_message : message;
  row_streaming : bool
}.

Inductive screen : Type :=
  | Navigate404
  | Unavailable
  | ChatScreen (rows : list row) (skeleton : bool) (formEquipment : json).

(** Line 74: [const messageId = message.id || index]. *)
Definition effective_id (m : message) (index : nat) : jsval :=
  js_or (msg_id m) (JsNumber (Z.of_nat index)).

(** Lines 73-77. *)
Definition render_rows (messages : list message) (streamingMessageId : jsval) : list row :=
  imap (fun index message =>
          let messageId := effective_id message index in
          mk_row messageId message (js_strict_eq streamingMessageId messageId))
       messages.

(** Line 78: [messages[messages.length - 1]?.role === "user"]. *)
Definition trailing_skeleton (messages : list message) : bool :=
  match last messages with
  | Some m => js_strict_eq (msg_role m) role_user
  | None => false
  end.

(** Line 64: [!isConnected && connectionStatus == "disconnected"]. *)
Definition chat_unavailable (isConnected : bool) (connectionStatus : conn_status) : bool :=
  negb isConnected &&
  bool_decide (status_string connectionStatus = js_of_string "disconnected").

(** Lines 57-89. *)
Definition render (loading : bool) (equipment : json) (isConnected : bool)
    (connectionStatus : conn_status) (messages : list message)
    (streamingMessageId : jsval) : screen :=
  if negb loading && negb (json_truthy equipment) then Navigate404
  else if chat_unavailable isConnected connectionStatus then Unavailable
  else if (0 <? length messages)%nat then
    ChatScreen (render_rows messages streamingMessageId) (trailing_skeleton messages) equipment
  else ChatScreen [] true equipment.

(** Line 83: the [<div ref={chatScrollRef}>] at the end of the list is
    rendered only on the chat screen; elsewhere [chatScrollRef.current] is
    [null]. *)
Definition scroll_anchor (sc : screen) : bool :=
  match sc with
  | ChatScreen _ _ _ => true
  | Navigate404 | Unavailable => false
  end.

(** The rows flagged as streaming. *)
Definition streaming_rows (rows : list row) : list row := filter row_streaming rows.

(** Whether the anchor is rendered depends on the lookup and the
    connection only, not on the log or the marker. *)
Lemma render_scroll_anchor (l : bool) (e : json) (c : bool) (cs : conn_status)
    (ms : list message) (k : jsval) :
  scroll_anchor (render l e c cs ms k) =
  negb (negb l && negb (json_truthy e)) && negb (chat_unavailable c cs).
Proof. unfold render. by repeat case_match. Qed.

(** ** Rows *)

Lemma render_rows_lookup (msgs : list message) (k : jsval) (i : nat) :
  render_rows msgs k !! i =
  (fun m => mk_row (effective_id m i) m (js_strict_eq k (effective_id m i))) <$> msgs !! i.
Proof. unfold render_rows. by rewrite list_lookup_imap. Qed.

Lemma render_rows_length (msgs : list message) (k : jsval) :
  length (render_rows msgs k) = length msgs.
Proof. apply length_imap. Qed.

Lemma render_rows_keys (msgs : list message) (k : jsval) :
  row_key <$> render_rows msgs k = imap (fun i m => effective_id m i) msgs.
Proof.
  unfold render_rows. apply list_eq. intros i.
  rewrite list_lookup_fmap, !list_lookup_imap. by destruct (msgs !! i).
Qed.

(** A row is flagged exactly when its key is the marker. *)
Lemma render_rows_streaming (msgs : list message) (k : jsval) (r : row) :
  r ∈ render_rows msgs k -> row_streaming r = true <-> row_key r = k.
Proof.
  unfold render_rows. intros Hr. apply elem_of_lookup_imap in Hr as (i & m & -> & _).
  simpl. rewrite js_strict_eq_spec. split; congruence.
Qed.

End ChatView.

Module ChatViewFacts.
Import ChatView.

(** C2. The marker the streaming effect sets flags the row of the last
    message: the key [lastMessage.id || messages.length - 1] of line 49
    is the key [message.id || index] that line 74 computes for the last
    row, so that row, and by [===] no row with another key, is rendered
    streaming. *)
Theorem effect_marker_flags_last_row (msgs : list message) (k : jsval) :
  streaming_effect msgs = inr (Some k) ->
  exists r, render_rows msgs k !! (length msgs - 1)%nat = Some r /\
            row_streaming r = true /\ last msgs = Some (row_message r).
Proof.
  intros H. apply streaming_effect_some_inv in H as (m & Hl & _ & ->).
  pose proof (last_index_lookup _ _ Hl) as Hm.
  assert (Hlen : (0 < length msgs)%nat).
  { destruct msgs; [done|simpl; lia]. }
  rewrite render_rows_lookup, Hm. eexists. split; [reflexivity|].
  simpl. split; [|done].
  unfold effective_id. rewrite Nat2Z.inj_sub by lia. apply js_strict_eq_refl.
Qed.

(** C17. When the effective ids are pairwise distinct, at most one row is
    rendered streaming, whatever the marker. *)
Theorem streaming_row_unique (msgs : list message) (k : jsval) :
  NoDup (imap (fun i m => effective_id m i) msgs) ->
  (length (streaming_rows (render_rows msgs k)) <= 1)%nat.
Proof.
  intros Hnd. rewrite <- (render_rows_keys msgs k) in Hnd.
  unfold streaming_rows. rewrite <- (length_fmap row_key).
  apply (NoDup_all_eq_length _ k).
  - eapply sublist_NoDup; [exact Hnd|]. apply fmap_sublist, sublist_filter.
  - intros x Hx. apply list_elem_of_fmap in Hx as (r & -> & Hr).
    apply list_elem_of_filter in Hr as [Hs Hr].
    apply (render_rows_streaming msgs k r Hr). by destruct (row_streaming r).
Qed.
Lemma effect_marker_flags_last_row_witness :
  exists r, render_rows [msg_user_hello; msg_assistant reply] (JsNumber 1) !! 1%nat = Some r /\
            row_streaming r = true /\
            last [msg_user_hello; msg_assistant reply] = Some (row_message r).
Proof.
  apply (effect_marker_flags_last_row [msg_user_hello; msg_assistant reply] (JsNumber 1)).
  vm_compute. reflexivity.
Defined.

Lemma streaming_row_unique_witness :
  (length (streaming_rows (render_rows [msg_user_hello; msg_assistant reply] (JsNumber 1))) <= 1)%nat.
Proof.
  apply streaming_row_unique.
  apply (bool_decide_unpack (NoDup (imap (fun i m => effective_id m i)
                                         [msg_user_hello; msg_assistant reply]))).
  vm_compute. exact I.
Defined.
End ChatViewFacts.

Module ChatViewCollisions.
Import ChatView.

(** C18. When an explicit id of one message equals the key [message.id ||
    index] of another (an id the store's fallback would also give, or a
    falsy id such as [0] that falls back to an index), the two rows share
    a key, and a marker equal to it flags both rows as streaming. *)
Theorem colliding_ids_flag_two_rows (msgs : list message) (i j : nat) (mi mj : message) :
  i <> j -> msgs !! i = Some mi -> msgs !! j = Some mj ->
  effective_id mi i = effective_id mj j ->
  (2 <= length (streaming_rows (render_rows msgs (effective_id mi i))))%nat.
Proof.
  intros Hij Hi Hj Heq. unfold streaming_rows.
  assert (Hri : render_rows msgs (effective_id mi i) !! i =
                Some (mk_row (effective_id mi i) mi true)).
  { rewrite render_rows_lookup, Hi. simpl. by rewrite js_strict_eq_refl. }
  assert (Hrj : render_rows msgs (effective_id mi i) !! j =
                Some (mk_row (effective_id mj j) mj true)).
  { rewrite render_rows_lookup, Hj. simpl. by rewrite Heq, js_strict_eq_refl. }
  destruct (Nat.lt_total i j) as [Hlt|[->|Hlt]]; [| done |].
  - exact (filter_two_positions _ _ _ _ _ _ Hlt Hri Hrj I I).
  - exact (filter_two_positions _ _ _ _ _ _ Hlt Hrj Hri I I).
Qed.

(** A log with a message without id at index 1 and a message with the
    explicit id 1 at index 2: both rows are flagged for the marker 1. *)
Definition colliding_log : list message :=
  [ mk_message JsUndefined role_user (JsString (js_of_string "hello"));
    mk_message JsUndefined role_user (JsString (js_of_string "again"));
    mk_message (JsNumber 1) role_assistant (envelope_text (js_of_string "Hi")) ].

Lemma colliding_ids_flag_two_rows_witness :
  (2 <= length (streaming_rows (render_rows colliding_log (JsNumber 1))))%nat.
Proof.
  apply (colliding_ids_flag_two_rows colliding_log 1 2
           (mk_message JsUndefined role_user (JsString (js_of_string "again")))
           (mk_message (JsNumber 1) role_assistant (envelope_text (js_of_string "Hi"))));
    [lia | reflexivity | reflexivity | reflexivity].
Defined.

(** C24. The router redirect of lines 57-59 happens exactly when the lookup
    is over ([loading] false) and the equipment is falsy. *)
Theorem render_navigate_iff (loading : bool) (equipment : json) (isConnected : bool)
    (status : conn_status) (msgs : list message) (k : jsval) :
  render loading equipment isConnected status msgs k = Navigate404 <->
  loading = false /\ json_truthy equipment = false.
Proof.
  unfold render.
  destruct loading, (json_truthy equipment); simpl;
    (split; [intros H | intros [H1 H2]]); try done;
    repeat case_match; done.
Qed.

(** C25. Lines 57-64: the "chat unavailable" notice is rendered exactly
    when the /404 guard does not fire and the socket reports
    [disconnected] without [isConnected]; [loading] enters only through
    the guard, so while the socket is down a lookup still in flight and a
    resolved equipment give the same screen: "still resolving" is not a
    state the user can see (spec 4.4 asks for three distinct ones). *)
Theorem render_unavailable_iff (loading : bool) (equipment : json) (isConnected : bool)
    (status : conn_status) (msgs : list message) (k : jsval) :
  render loading equipment isConnected status msgs k = Unavailable <->
  (loading = true \/ json_truthy equipment = true) /\ chat_unavailable isConnected status = true.
Proof.
  unfold render.
  destruct loading, (json_truthy equipment), (chat_unavailable isConnected status); simpl;
    repeat case_match; intuition congruence.
Qed.

End ChatViewCollisions.
