(* ===== verification/ChatInterface.v ===== *)
(** The whole component [ChatInterface] (ChatInterface.jsx lines 12-90)
    as a step function over the events that reach it: a change of the
    route parameters (line 20, which re-runs the effect of lines 23-36), a
    lookup request settling (lines 27-33), the socket hook appending a
    message or resolving the last one in the chat store ([on_append],
    [on_update_last]), and a change of the connection status.  After a
    commit in which [messages] changed, React runs the effects that depend
    on it in declaration order: the scroll of lines 38-40, skipped by the
    optional chaining when the anchor of line 83 is not rendered, then the
    streaming effect of lines 42-53, which may throw; a thrown exception
    ends the component ([inl]).  The hook [useChatSocket(equipment)] of
    line 55 retargets the connection when [equipment] changes.  The marker
    invariant is proved against the store's contract [MessageLogLaws];
    the reachable states satisfy it and keep the connection attached to
    the equipment held. *)

From S2P Require Import Prelude JsValue Json JsonParse JsonPrint ChatStore SocketStore StreamingSelector EquipmentFetch ChatView.
Import Store Socket StreamingSelector EquipmentFetch ChatView.

Module ChatInterface.

Record state : Type := mk_state {
  route : params;
  fetch : EquipmentFetch.state;
  store : Store.state;
  socket : Socket.state;
  scrolls : nat            (** calls of [scrollIntoView], line 39 *)
}.

Inductive event : Type :=
  | EvRoute (p : params)
  | EvFetchSettle (req : nat) (r : response)
  | EvAppend (m : message)
  | EvUpdateLast (c : jsval)
  | EvSocketStatus (c : conn_status).

(** The screen of the current state (lines 57-89). *)
Definition view (st : state) : screen :=
  render (loading (fetch st)) (equipment (fetch st))
         (isConnected (socket st)) (connectionStatus (socket st))
         (messages (store st)) (streamingMessageId (store st)).

(** Lines 38-40: [chatScrollRef.current?.scrollIntoView(...)] after a
    commit that changed [messages]; the optional chaining skips the call
    when the anchor of line 83 is not on the committed screen. *)
Definition scroll_effect (st : state) : state :=
  if scroll_anchor (view st)
  then mk_state (route st) (fetch st) (store st) (socket st) (S (scrolls st))
  else st.

(** Lines 38-40 and 42-53, in this order, after [messages] changed. *)
Definition messages_changed (st : state) : exn + state :=
  let st1 := scroll_effect st in
  store' <-? run_effect (store st1) ;;
  inr (mk_state (route st1) (fetch st1) store' (socket st1) (scrolls st1)).

(** [useState] and [useEffect] compare with [Object.is]: a parsed object
    or array is a new reference, a primitive is compared by value. *)
Definition equipment_changed (old new : json) : bool :=
  match old, new with
  | JNull, JNull => false
  | JBool a, JBool b => negb (Bool.eqb a b)
  | JNum a, JNum b => negb (bool_decide (a = b))
  | JStr a, JStr b => negb (bool_decide (a = b))
  | _, _ => true
  end.

(** The socket hook appends a message: a new [messages] array, so the
    commit runs the effects on [messages]. *)
Definition on_append (m : message) (st : state) : exn + state :=
  messages_changed (mk_state (route st) (fetch st) (append m (store st)) (socket st) (scrolls st)).

(** The socket hook resolves the last message.  The store makes a new
    [messages] array only when it replaces the last message, an
    assistant's; otherwise it does nothing and keeps the same array, so
    React compares [messages] equal by reference and runs no effect. *)
Definition on_update_last (c : jsval) (st : state) : exn + state :=
  if updateLast_applies (store st)
  then messages_changed (mk_state (route st) (fetch st) (updateLast c (store st)) (socket st) (scrolls st))
  else inr st.

Definition step (st : state) (e : event) : exn + state :=
  match e with
  | EvRoute p =>
      if bool_decide (p = route st) then inr st
      else inr (mk_state p (start_fetch p (fetch st)) (store st) (socket st) (scrolls st))
  | EvFetchSettle req r =>
      let f' := settle req r (fetch st) in
      let sock' := if equipment_changed (equipment (fetch st)) (equipment f')
                   then retarget (equipment f') (socket st) else socket st in
      inr (mk_state (route st) f' (store st) sock' (scrolls st))
  | EvAppend m => on_append m st
  | EvUpdateLast c => on_update_last c st
  | EvSocketStatus c =>
      inr (mk_state (route st) (fetch st) (store st) (setStatus c (socket st)) (scrolls st))
  end.

(** The first render with the route [p]: the lookup is sent and the
    effects run once on the store as the component finds it. *)
Definition mount (p : params) (store0 : Store.state) (socket0 : Socket.state) : exn + state :=
  messages_changed (mk_state p (start_fetch p EquipmentFetch.initial) store0 socket0 0).

(** Events in order; the first exception stops the run. *)
Fixpoint run (st : state) (es : list event) : exn + state :=
  match es with
  | [] => inr st
  | e :: es' => st' <-? step st e ;; run st' es'
  end.

(** ** The marker names an assistant row *)

(** The marker is [null] or the key of an assistant message of the log.
    The lemmas of this section use only the store's contract, the class
    [MessageLogLaws]. *)
Section LogMarker.
Context {L : Type} {ML : MessageLog L} {MLL : MessageLogLaws L}.

Definition log_marker_ok (s : L) : Prop :=
  log_marker s = JsNull \/
  exists i m, log_messages s !! i = Some m /\
              js_strict_eq (msg_role m) role_assistant = true /\
              log_marker s = effective_id m i.

Lemma log_marker_ok_keep (s s' : L) :
  log_marker s' = log_marker s ->
  (forall i x, log_messages s !! i = Some x ->
     exists x', log_messages s' !! i = Some x' /\ msg_id x' = msg_id x /\ msg_role x' = msg_role x) ->
  log_marker_ok s -> log_marker_ok s'.
Proof.
  intros Hk Hkeep [Hnull|(i & m & Hi & Hrole & Hm)]; [left; congruence|right].
  destruct (Hkeep i m Hi) as (m' & Hi' & Hid & Hr).
  exists i, m'. rewrite Hr, Hk, Hm. unfold effective_id. by rewrite Hid.
Qed.

Lemma log_marker_ok_append (m : message) (s : L) :
  log_marker_ok s -> log_marker_ok (log_append m s).
Proof using MLL.
  apply log_marker_ok_keep; [apply log_append_marker|].
  intros i x Hx. destruct (log_append_end m s) as (m' & -> & _). exists x.
  split; [by apply lookup_app_l_Some|done].
Qed.

Lemma log_marker_ok_updateLast (c : jsval) (s : L) :
  log_marker_ok s -> log_marker_ok (log_updateLast c s).
Proof using MLL. apply log_marker_ok_keep; [apply log_updateLast_marker|apply log_updateLast_keep]. Qed.
End LogMarker.

Definition marker_ok (s : Store.state) : Prop := log_marker_ok s.

Lemma run_effect_marker_ok (s s' : Store.state) :
  marker_ok s -> run_effect s = inr s' -> marker_ok s'.
Proof.
  unfold run_effect. destruct (streaming_effect (messages s)) as [e|[k|]] eqn:E;
    intros Hok H; [discriminate| |by injection H as <-].
  injection H as <-. apply streaming_effect_some_inv in E as (m & Hl & Hrole & ->).
  unfold marker_ok, log_marker_ok. simpl. right. exists (length (messages s) - 1)%nat, m. simpl.
  split; [by apply last_index_lookup|split; [done|]].
  assert (0 < length (messages s))%nat by (destruct (messages s); [done|simpl; lia]).
  unfold effective_id. by rewrite Nat2Z.inj_sub by lia.
Qed.

Lemma scroll_effect_fields (st : state) :
  route (scroll_effect st) = route st /\ fetch (scroll_effect st) = fetch st /\
  store (scroll_effect st) = store st /\ socket (scroll_effect st) = socket st.
Proof. unfold scroll_effect. by case_match. Qed.

(** What the effects on [messages] leave: the store the streaming effect
    returns, the scroll of [scroll_effect], nothing else changed. *)
Lemma messages_changed_inr (st st' : state) :
  messages_changed st = inr st' <->
  exists s', run_effect (store st) = inr s' /\
             st' = mk_state (route st) (fetch st) s' (socket st) (scrolls (scroll_effect st)).
Proof.
  unfold messages_changed. destruct (scroll_effect_fields st) as (-> & -> & -> & ->).
  destruct (run_effect (store st)) as [e|s']; simpl; split.
  - discriminate.
  - by intros (? & ? & _).
  - intros [= <-]. eauto.
  - by intros (? & [= <-] & ->).
Qed.

Lemma messages_changed_marker_ok (st st' : state) :
  marker_ok (store st) -> messages_changed st = inr st' -> marker_ok (store st').
Proof.
  intros Hok (s' & E & ->)%messages_changed_inr. simpl.
  by apply (run_effect_marker_ok (store st)).
Qed.

Lemma step_marker_ok (st st' : state) (e : event) :
  marker_ok (store st) -> step st e = inr st' -> marker_ok (store st').
Proof.
  intros Hok. destruct e as [p|req r|m|c|c]; simpl; unfold on_append, on_update_last.
  - case_bool_decide; intros Hs; injection Hs as <-; done.
  - intros H. by injection H as <-.
  - intros H. eapply messages_changed_marker_ok; [|exact H]. simpl.
    exact (log_marker_ok_append (L := Store.state) m (store st) Hok).
  - destruct (updateLast_applies (store st)); [|intros Hs; by injection Hs as <-].
    intros Hs. eapply messages_changed_marker_ok; [|exact Hs].
    exact (log_marker_ok_updateLast (L := Store.state) c (store st) Hok).
  - intros H. by injection H as <-.
Qed.

(** ** The connection follows the equipment *)

(** [Object.is] on the values [JSON.parse] builds: only primitives can
    be the same. *)
Lemma equipment_changed_false (a b : json) : equipment_changed a b = false -> a = b.
Proof.
  destruct a, b; simpl; try discriminate; intros H; try done.
  - apply negb_false_iff, Bool.eqb_prop in H. by subst.
  - apply negb_false_iff in H. case_bool_decide; [by subst|done].
  - apply negb_false_iff in H. case_bool_decide; [by subst|done].
Qed.

Lemma retarget_attached (e : json) (s : Socket.state) :
  attached (retarget e s) = if json_truthy e then e else JNull.
Proof. unfold retarget, connect. by destruct (json_truthy e). Qed.

(** The socket is attached to the equipment the component holds, or
    detached while that equipment is falsy. *)
Definition socket_tracks (st : state) : Prop :=
  attached (socket st) = if json_truthy (equipment (fetch st)) then equipment (fetch st) else JNull.

Lemma messages_changed_socket (st st' : state) :
  messages_changed st = inr st' -> socket st' = socket st /\ fetch st' = fetch st.
Proof. by intros (s' & _ & ->)%messages_changed_inr. Qed.

Lemma step_socket_tracks (st st' : state) (e : event) :
  socket_tracks st -> step st e = inr st' -> socket_tracks st'.
Proof.
  unfold socket_tracks. intros Ht.
  destruct e as [p|req r|m|c|c]; simpl; unfold on_append, on_update_last.
  - case_bool_decide; intros [= <-]; done.
  - intros [= <-]. simpl.
    destruct (equipment_changed _ _) eqn:Hc; [apply retarget_attached|].
    apply equipment_changed_false in Hc. by rewrite <- Hc.
  - intros (-> & ->)%messages_changed_socket. done.
  - destruct (updateLast_applies (store st)); [|by intros [= <-]].
    intros (-> & ->)%messages_changed_socket. done.
  - by intros [= <-].
Qed.

Section Reachable.
(** The route of the first render, and the stores as the component
    finds them (both stores outlive the component). *)
Variable p0 : params.
Variable store0 : Store.state.
Variable socket0 : Socket.state.
Hypothesis store0_ok : marker_ok store0.
(** Before the first render the socket is attached to nothing. *)
Hypothesis socket0_detached : attached socket0 = JNull.

Inductive reachable : state -> Prop :=
  | reachable_mount st : mount p0 store0 socket0 = inr st -> reachable st
  | reachable_step st e st' : reachable st -> step st e = inr st' -> reachable st'.

Lemma reachable_run (st st' : state) (es : list event) :
  reachable st -> run st es = inr st' -> reachable st'.
Proof.
  revert st. induction es as [|e es IH]; intros st Hr Hrun; simpl in Hrun.
  - by injection Hrun as <-.
  - destruct (step st e) as [x|st1] eqn:E; simpl in Hrun; [discriminate|].
    apply (IH st1); [exact (reachable_step st e st1 Hr E) | exact Hrun].
Qed.

Lemma reachable_marker_ok (st : state) : reachable st -> marker_ok (store st).
Proof using store0_ok.
  induction 1 as [st Hm|st e st' _ IH Hs].
  - eapply messages_changed_marker_ok; [|exact Hm]. exact store0_ok.
  - by apply (step_marker_ok st st' e).
Qed.
(** C3. In every reachable state, a marker other than [null] is the key
    of an assistant message of the log, and that message's row is
    rendered streaming. *)
Theorem reachable_marker_flags_row (st : state) :
  reachable st -> streamingMessageId (store st) <> JsNull ->
  exists r, r ∈ render_rows (messages (store st)) (streamingMessageId (store st)) /\
            row_streaming r = true /\
            js_strict_eq (msg_role (row_message r)) role_assistant = true.
Proof using store0_ok.
  intros Hr Hnn. destruct (reachable_marker_ok st Hr) as [Hnull|(i & m & Hi & Hrole & Hk)];
    [done|]. simpl in Hi, Hk.
  eexists. split; [apply list_elem_of_lookup_2 with i; rewrite render_rows_lookup, Hi; done|].
  simpl. rewrite Hk, js_strict_eq_refl. done.
Qed.
(** C8. Lines 27 and 55 composed with the hook: in every state reachable
    from the first render, the connection is attached to the equipment
    the component holds (or detached while it is falsy), whichever
    request that equipment came from. *)
Theorem reachable_socket_tracks (st : state) :
  reachable st ->
  attached (socket st) = if json_truthy (equipment (fetch st)) then equipment (fetch st) else JNull.
Proof using socket0_detached.
  induction 1 as [st Hm|st e st' _ IH Hs].
  - apply messages_changed_socket in Hm as [-> ->]. simpl. exact socket0_detached.
  - by apply (step_socket_tracks st st' e).
Qed.
End Reachable.

(** The effect after appending a message that is not an assistant's. *)
Lemma append_effect_inert (s : Store.state) (m : message) :
  js_strict_eq (msg_role m) role_assistant = false ->
  streaming_effect (messages (append m s)) = inr None.
Proof.
  intros Hrole. destruct (append_messages m s) as (m' & Hms & Hr & _).
  rewrite streaming_effect_last, Hms. autorewrite with chat_rw. unfold effect_on_last.
  by rewrite Hr, Hrole.
Qed.

(** C15. The code never clears the marker: when the user's message follows
    a streamed assistant message, the marker still names the assistant
    message, whose row stays flagged as streaming. *)
Theorem marker_survives_user_message (st st' : state) (m : message) :
  js_strict_eq (msg_role m) role_assistant = false ->
  step st (EvAppend m) = inr st' ->
  streamingMessageId (store st') = streamingMessageId (store st) /\
  messages (store st') = messages (append m (store st)).
Proof.
  intros Hrole. unfold step, on_append. intros (s' & E & ->)%messages_changed_inr. simpl in E |- *.
  unfold run_effect in E. rewrite append_effect_inert in E by done.
  by injection E as <-.
Qed.

(** The commit after an assistant message that is not JSON text throws
    [SyntaxError]. *)
Lemma on_append_unparsable (st : state) (m : message) :
  js_strict_eq (msg_role m) role_assistant = true ->
  (forall j, JSON_parse (msg_content m) <> inr j) ->
  step st (EvAppend m) = inl SyntaxError.
Proof.
  intros Hrole Hp. unfold step, on_append, messages_changed.
  destruct (scroll_effect_fields (mk_state (route st) (fetch st) (append m (store st))
                                           (socket st) (scrolls st))) as (_ & _ & -> & _).
  unfold run_effect. cbn [store].
  destruct (append_messages m (store st)) as (m' & Hms & Hr & Hc).
  rewrite streaming_effect_last, Hms. autorewrite with chat_rw. unfold effect_on_last.
  rewrite Hr, Hrole, Hc. destruct (JSON_parse (msg_content m)) as [e|j] eqn:E.
  - apply JSON_parse_error in E as ->. done.
  - by destruct (Hp j).
Qed.

(** C14. An assistant message whose content is not JSON text ends the
    component: the streaming effect throws [SyntaxError] out of the
    commit. *)
Theorem append_unparsable_crashes (st : state) (m : message) :
  js_strict_eq (msg_role m) role_assistant = true ->
  (forall j, JSON_parse (msg_content m) <> inr j) ->
  step st (EvAppend m) = inl SyntaxError.
Proof. apply on_append_unparsable. Qed.

Lemma view_scroll_anchor (st : state) :
  scroll_anchor (view st) =
  negb (negb (loading (fetch st)) && negb (json_truthy (equipment (fetch st)))) &&
  negb (chat_unavailable (isConnected (socket st)) (connectionStatus (socket st))).
Proof. apply render_scroll_anchor. Qed.

(** C16. Lines 38-40 and 83: after a message is appended, [scrollIntoView]
    is called once when the committed screen is the chat list, which
    carries the anchor, and not at all on the /404 redirect or the
    "unavailable" notice, where [chatScrollRef.current?.] skips the call
    without an error. *)
Theorem append_scrolls_iff_anchor (st st' : state) (m : message) :
  step st (EvAppend m) = inr st' ->
  scrolls st' = if scroll_anchor (view st') then S (scrolls st) else scrolls st.
Proof.
  intros (s' & _ & ->)%messages_changed_inr. simpl.
  unfold scroll_effect. rewrite !view_scroll_anchor. simpl.
  by destruct (_ && _).
Qed.

Lemma equipment_changed_obj (a : json) (kvs : list (jstr * json)) :
  equipment_changed a (JObj kvs) = true.
Proof. by destruct a. Qed.

(** C9. No cleanup in lines 23-36, composed with line 55: when the
    request of the new route settles before the one of the previous
    route, the previous route's equipment (an object, as the API returns
    it) becomes the equipment and the chat connection is attached to it,
    while the route stays the new one. *)
Theorem late_response_attaches_socket (st : state) (older newer : nat) (d_new : json)
    (kvs : list (jstr * json)) :
  older ∈ (pending (fetch st)).*1 -> older <> newer ->
  exists st', run st [EvFetchSettle newer (Fulfilled d_new); EvFetchSettle older (Fulfilled (JObj kvs))]
              = inr st' /\
    route st' = route st /\ equipment (fetch st') = JObj kvs /\ attached (socket st') = JObj kvs.
Proof.
  intros Hold Hne. eexists. split; [reflexivity|]. simpl.
  rewrite (settle_fulfilled (settle newer (Fulfilled d_new) (fetch st)) older (JObj kvs))
    by (by apply settle_keeps_pending).
  rewrite equipment_changed_obj, retarget_attached. done.
Qed.

(** ** Keys of rows when the socket sends no ids *)

(** The key of every row is its index. *)
Definition keys_are_indices (s : Store.state) : Prop :=
  forall i m, messages s !! i = Some m -> effective_id m i = JsNumber (Z.of_nat i).

(** An event that appends a message brings no explicit id. *)
Definition anonymous (e : event) : Prop :=
  match e with EvAppend m => msg_id m = JsUndefined | _ => True end.

Lemma run_effect_messages (s s' : Store.state) :
  run_effect s = inr s' -> messages s' = messages s.
Proof. unfold run_effect. by repeat case_match; intros [= <-]. Qed.

Lemma messages_changed_messages (st st' : state) :
  messages_changed st = inr st' -> messages (store st') = messages (store st).
Proof. intros (s' & E & ->)%messages_changed_inr. by apply run_effect_messages. Qed.

Lemma keys_are_indices_append (s : Store.state) (m : message) :
  msg_id m = JsUndefined -> keys_are_indices s -> keys_are_indices (append m s).
Proof.
  intros Hid Hk i x. unfold append. rewrite Hid. simpl.
  intros [Hx|[Hge Hx]]%lookup_app_Some; [by apply Hk|].
  apply list_lookup_singleton_Some in Hx as [Hi <-].
  replace i with (length (messages s)) by lia.
  unfold effective_id, js_or. by destruct (js_truthy _).
Qed.

Lemma keys_are_indices_updateLast (s : Store.state) (c : jsval) :
  keys_are_indices s -> keys_are_indices (updateLast c s).
Proof.
  intros Hk i x Hx.
  assert (Hi : (i < length (messages s))%nat)
    by (rewrite <- (updateLast_length c); by eapply lookup_lt_Some).
  destruct (lookup_lt_is_Some_2 _ _ Hi) as [y Hy].
  destruct (updateLast_lookup_keep c s i y Hy) as (x' & Hx' & Hid & _).
  rewrite Hx in Hx'. injection Hx' as <-. unfold effective_id. rewrite Hid. by apply Hk.
Qed.

Lemma step_keys_are_indices (st st' : state) (e : event) :
  anonymous e -> keys_are_indices (store st) -> step st e = inr st' ->
  keys_are_indices (store st').
Proof.
  intros Ha Hk. destruct e as [p|req r|m|c|c]; simpl in *; unfold on_append, on_update_last.
  - case_bool_decide; intros [= <-]; done.
  - by intros [= <-].
  - intros H. apply messages_changed_messages in H. simpl in H.
    intros i x. rewrite H. by apply keys_are_indices_append.
  - destruct (updateLast_applies (store st)); [|by intros [= <-]].
    intros H. apply messages_changed_messages in H. simpl in H.
    intros i x. rewrite H. by apply keys_are_indices_updateLast.
  - by intros [= <-].
Qed.

(** C10. Spec section 3 (effective ids unique at any instant) when the
    socket sends its messages without ids: along every run of such
    events, the key [message.id || index] of line 74 of every rendered row
    is its index, since the store numbers a message without id by the
    length of the log and [updateLast] keeps ids. *)
Theorem anonymous_run_keys_are_indices (st st' : state) (es : list event) :
  keys_are_indices (store st) -> Forall anonymous es -> run st es = inr st' ->
  forall i m, messages (store st') !! i = Some m -> effective_id m i = JsNumber (Z.of_nat i).
Proof.
  intros Hk Hes. revert st Hk. induction Hes as [|e es He _ IH]; intros st Hk Hrun; simpl in Hrun.
  - by injection Hrun as <-.
  - destruct (step st e) as [x|st1] eqn:E; simpl in Hrun; [discriminate|].
    apply (IH st1); [by apply (step_keys_are_indices st st1 e)|done].
Qed.

(** ** Witnesses: the spec's scenarios as one session *)

Definition route0 : params :=
  mk_params (JsString (js_of_string "energy")) (JsString (js_of_string "pump")).
Definition socket_up : Socket.state := Socket.mk_state true Connected JNull [] None [] 0.

Definition from_inr (d : state) (r : exn + state) : state :=
  match r with inr st => st | inl _ => d end.

Definition st_mount : state :=
  from_inr (mk_state route0 EquipmentFetch.initial Store.initial socket_up 0)
           (mount route0 Store.initial socket_up).

(** Spec scenarios 5-7 and the user's next message. *)
Definition session : list event :=
  [ EvAppend msg_user_hello;
    EvAppend (msg_assistant placeholder);
    EvUpdateLast (envelope_text reply) ].

Definition st_streamed : state := from_inr st_mount (run st_mount session).

Lemma st_mount_reachable : reachable route0 Store.initial socket_up st_mount.
Proof. apply reachable_mount. vm_compute. reflexivity. Qed.

Lemma st_streamed_reachable : reachable route0 Store.initial socket_up st_streamed.
Proof.
  apply (reachable_run _ _ _ st_mount st_streamed session st_mount_reachable).
  vm_compute. reflexivity.
Qed.

Lemma reachable_marker_flags_row_witness :
  exists r, r ∈ render_rows (messages (store st_streamed)) (streamingMessageId (store st_streamed)) /\
            row_streaming r = true /\
            js_strict_eq (msg_role (row_message r)) role_assistant = true.
Proof.
  apply (reachable_marker_flags_row route0 Store.initial socket_up (or_introl eq_refl)
           st_streamed st_streamed_reachable).
  vm_compute. discriminate.
Defined.

Definition msg_user_thanks : message :=
  Store.mk_message JsUndefined role_user (JsString (js_of_string "thanks")).

(** After the user's next message the marker is still 1, the id of the
    assistant's reply. *)
Lemma marker_survives_user_message_witness :
  streamingMessageId (store (from_inr st_streamed (step st_streamed (EvAppend msg_user_thanks))))
  = JsNumber 1.
Proof.
  destruct (marker_survives_user_message st_streamed
              (from_inr st_streamed (step st_streamed (EvAppend msg_user_thanks)))
              msg_user_thanks) as [-> _];
    [reflexivity | vm_compute; reflexivity | vm_compute; reflexivity].
Defined.

(** The connection drops after the session; a message that arrives then
    is not scrolled to, since the notice replaces the list. *)
Definition st_down : state := from_inr st_streamed (step st_streamed (EvSocketStatus Disconnected)).

Lemma append_scrolls_iff_anchor_witness :
  scrolls (from_inr st_down (step st_down (EvAppend msg_user_thanks))) = scrolls st_down.
Proof.
  rewrite (append_scrolls_iff_anchor st_down _ msg_user_thanks); [|vm_compute; reflexivity].
  vm_compute. reflexivity.
Defined.

Lemma reachable_socket_tracks_witness :
  attached (socket st_streamed) =
  if json_truthy (equipment (fetch st_streamed)) then equipment (fetch st_streamed) else JNull.
Proof.
  apply (reachable_socket_tracks route0 Store.initial socket_up eq_refl st_streamed
           st_streamed_reachable).
Defined.

(** The route changes from "pump" to "valve" before the first lookup
    settles: both requests are in flight. *)
Definition route1 : params :=
  mk_params (JsString (js_of_string "energy")) (JsString (js_of_string "valve")).
Definition st_race : state := from_inr st_mount (step st_mount (EvRoute route1)).
Definition pump : list (jstr * json) := [(js_of_string "name", JStr (js_of_string "pump"))].

Lemma late_response_attaches_socket_witness :
  exists st', run st_race [EvFetchSettle 1 (Fulfilled (JObj [(js_of_string "name", JStr (js_of_string "valve"))]));
                           EvFetchSettle 0 (Fulfilled (JObj pump))] = inr st' /\
    route st' = route1 /\ equipment (fetch st') = JObj pump /\ attached (socket st') = JObj pump.
Proof.
  apply (late_response_attaches_socket st_race 0 1); [vm_compute; left|lia].
Defined.

(** After the session, the reply (row 1) is keyed 1. *)
Lemma anonymous_run_keys_are_indices_witness :
  exists m, messages (store st_streamed) !! 1%nat = Some m /\ effective_id m 1 = JsNumber 1.
Proof.
  eexists. split; [vm_compute; reflexivity|].
  apply (anonymous_run_keys_are_indices st_mount st_streamed session).
  - intros i m. vm_compute. discriminate.
  - repeat constructor.
  - vm_compute. reflexivity.
  - vm_compute. reflexivity.
Defined.

Lemma append_unparsable_crashes_witness :
  step st_streamed (EvAppend (Store.mk_message JsUndefined role_assistant (JsString reply)))
  = inl SyntaxError.
Proof.
  apply append_unparsable_crashes; [reflexivity | intros j; vm_compute; discriminate].
Defined.
End ChatInterface.
