(* ===== verification/SessionSpec.v ===== *)
(** An abstract specification of the chat session's message pipeline,
    from the spec's data model (section 3), the log contract (4.2), the
    streaming selector (4.3) and the event pipeline of section 9
    (mutation, then recomputation of the marker), and the proof that the
    component's handler [ChatInterface.step] refines it on the events that
    carry well-formed payloads: a user message, or an assistant message or
    update whose content is a serialized envelope. *)

From S2P Require Import Prelude JsValue Json JsonParse JsonPrint ChatStore SocketStore StreamingSelector EquipmentFetch ChatView ChatInterface.
Import Store StreamingSelector EquipmentFetch ChatInterface.

Module SessionSpec.

(** ** The abstract session *)

Inductive arole : Type := AUser | AAssistant.

(** A message as the spec sees it: its optional identity, its role, and
    whether its [responseText] has been produced (not the placeholder). *)
Record amsg : Type := mk_amsg {
  a_id : jsval;
  a_role : arole;
  a_produced : bool
}.

#[export] Instance arole_eq_dec : EqDecision arole.
Proof. solve_decision. Defined.
#[export] Instance amsg_eq_dec : EqDecision amsg.
Proof. solve_decision. Defined.

Record astate : Type := mk_astate {
  alog : list amsg;
  amarker : jsval           (** [null]: no marker *)
}.

(** Identity, falling back to the ordinal position (section 3). *)
Definition a_ident (am : amsg) (pos : Z) : jsval := js_or (a_id am) (JsNumber pos).

(** [append]: an unset id becomes the length of the log (4.2). *)
Definition a_append (am : amsg) (a : astate) : astate :=
  let am' := match a_id am with
             | JsUndefined => mk_amsg (JsNumber (Z.of_nat (length (alog a)))) (a_role am) (a_produced am)
             | _ => am
             end in
  mk_astate (alog a ++ [am']) (amarker a).

Definition a_is_assistant (am : amsg) : bool :=
  match a_role am with AAssistant => true | AUser => false end.

(** [updateLast]: the final message, an assistant's, takes its new
    production state; a no-op otherwise (4.2). *)
Definition a_updateLast (produced : bool) (a : astate) : astate :=
  match last (alog a) with
  | Some am =>
      if a_is_assistant am
      then mk_astate (removelast (alog a) ++ [mk_amsg (a_id am) AAssistant produced]) (amarker a)
      else a
  | None => a
  end.

(** The selector (4.3): the identity of the last message when it is an
    assistant's that has produced output; otherwise the marker is left. *)
Definition a_select (l : list amsg) : option jsval :=
  match last l with
  | Some am =>
      if a_is_assistant am && a_produced am
      then Some (a_ident am (Z.of_nat (length l) - 1)) else None
  | None => None
  end.

Definition a_recompute (a : astate) : astate :=
  match a_select (alog a) with
  | Some k => mk_astate (alog a) k
  | None => a
  end.

(** The events of a session: a message appended, the last one updated,
    or an event that does not touch the log (the resolution lookup, a
    connection state change, a change of target). *)
Inductive aevent : Type :=
  | AAppend (am : amsg)
  | AUpdateLast (produced : bool)
  | ASilent.

(** Section 9: a mutation event, then the recomputation of the marker
    when the log changed. *)
Definition a_step (a : astate) (e : aevent) : astate :=
  match e with
  | AAppend am => a_recompute (a_append am a)
  | AUpdateLast p =>
      let a' := a_updateLast p a in
      if bool_decide (alog a' = alog a) then a else a_recompute a'
  | ASilent => a
  end.

(** ** The correspondence *)

(** A message of the store stands for an abstract one: same id, the role
    string of its role, and for an assistant a content that is the
    envelope of a response, produced when it is not ["loading"]; a user's
    message is produced when it is created (section 3). *)
Definition msg_rel (m : message) (am : amsg) : Prop :=
  msg_id m = a_id am /\
  match a_role am with
  | AUser => msg_role m = role_user /\ a_produced am = true
  | AAssistant =>
      msg_role m = role_assistant /\
      exists r, code_units_ok r = true /\ msg_content m = envelope_text r /\
                a_produced am = negb (bool_decide (r = placeholder))
  end.

Definition store_rel (s : Store.state) (a : astate) : Prop :=
  Forall2 msg_rel (messages s) (alog a) /\ streamingMessageId s = amarker a.

(** The events of the socket hook that carry well-formed payloads. *)
Definition event_rel (e : event) (ae : aevent) : Prop :=
  match e, ae with
  | EvAppend m, AAppend am => msg_rel m am
  | EvUpdateLast c, AUpdateLast p =>
      exists r, code_units_ok r = true /\ c = envelope_text r /\
                p = negb (bool_decide (r = placeholder))
  | (EvRoute _ | EvFetchSettle _ _ | EvSocketStatus _), ASilent => True
  | _, _ => False
  end.

(** The invariant of the abstract session: when the last message is an
    assistant's that has produced output, the marker is its identity. *)
Definition a_fresh (a : astate) : Prop :=
  forall k, a_select (alog a) = Some k -> amarker a = k.

(** ** Simulation *)

Lemma role_user_not_assistant : js_strict_eq role_user role_assistant = false.
Proof. reflexivity. Qed.

(** The effect of lines 42-53 computes the selector on related logs,
    and throws nothing. *)
Lemma streaming_effect_rel (msgs : list message) (l : list amsg) :
  Forall2 msg_rel msgs l -> streaming_effect msgs = inr (a_select l).
Proof.
  intros Hl. rewrite streaming_effect_last. unfold a_select.
  rewrite <- (Forall2_length _ _ _ Hl). pose proof (Forall2_last _ _ _ Hl) as Hlast.
  destruct (last msgs) as [m|], (last l) as [am|]; inversion Hlast as [? ? [Hid Hrole]|]; subst;
    [|done]. unfold a_is_assistant. destruct (a_role am) eqn:Ha; simpl.
  - destruct Hrole as [Hrole _]. unfold effect_on_last. by rewrite Hrole, role_user_not_assistant.
  - destruct Hrole as (Hrole & r & Hr & Hc & Hp).
    rewrite (envelope_response r) by (rewrite ?Hrole; auto with chat).
    rewrite Hp. unfold a_ident. rewrite Hid. by case_bool_decide.
Qed.

Lemma run_effect_rel (s : Store.state) (a : astate) :
  store_rel s a -> exists s', run_effect s = inr s' /\ store_rel s' (a_recompute a).
Proof.
  intros [Hl Hk]. unfold run_effect, a_recompute. rewrite (streaming_effect_rel _ _ Hl).
  destruct (a_select (alog a)); eexists; (split; [reflexivity|]); by split.
Qed.

Lemma messages_changed_rel (st : state) (a : astate) :
  store_rel (store st) a ->
  exists st', messages_changed st = inr st' /\ store_rel (store st') (a_recompute a).
Proof.
  intros Hr. destruct (run_effect_rel _ _ Hr) as (s' & Hs' & Hr').
  eexists. split; [apply messages_changed_inr; eauto|done].
Qed.

Lemma append_rel (s : Store.state) (a : astate) (m : message) (am : amsg) :
  store_rel s a -> msg_rel m am -> store_rel (append m s) (a_append am a).
Proof.
  intros [Hl Hk] [Hid Hm]. unfold append, a_append. split; simpl; [|done].
  apply Forall2_app; [done|]. constructor; [|constructor].
  rewrite Hid. destruct (a_id am) eqn:Ea; try (split; [congruence|exact Hm]).
  rewrite (Forall2_length _ _ _ Hl). split; [done|exact Hm].
Qed.

Lemma updateLast_rel (s : Store.state) (a : astate) (r : jstr) :
  store_rel s a -> code_units_ok r = true ->
  store_rel (updateLast (envelope_text r) s) (a_updateLast (negb (bool_decide (r = placeholder))) a).
Proof.
  intros [Hl Hk] Hr. unfold updateLast, a_updateLast.
  pose proof (Forall2_last _ _ _ Hl) as Hlast.
  destruct (last (messages s)) as [m|], (last (alog a)) as [am|];
    inversion Hlast as [? ? [Hid Hm]|]; subst; [|by split].
  unfold a_is_assistant. destruct (a_role am).
  - destruct Hm as [Hrole _]. rewrite Hrole, role_user_not_assistant. by split.
  - destruct Hm as [Hrole _]. rewrite Hrole, js_strict_eq_refl. split; [simpl|done].
    apply Forall2_app; [by apply Forall2_removelast|]. constructor; [|constructor].
    split; [done|]. simpl. split; [done|]. by exists r.
Qed.

Lemma envelope_text_inj (r r' : jstr) :
  code_units_ok r = true -> code_units_ok r' = true ->
  envelope_text r = envelope_text r' -> r = r'.
Proof.
  intros Hr Hr' H. apply (f_equal JSON_parse) in H. unfold envelope_text in H.
  rewrite !JSON_parse_string, !parse_text_print in H by (by apply envelope_wf).
  by injection H.
Qed.

(** A message of the store stands for one abstract message only. *)
Lemma msg_rel_functional (m : message) (am1 am2 : amsg) :
  msg_rel m am1 -> msg_rel m am2 -> am1 = am2.
Proof.
  destruct am1 as [i1 r1 p1], am2 as [i2 r2 p2]; intros [Hi1 H1] [Hi2 H2];
    simpl in *; subst i1 i2.
  destruct r1, r2.
  - destruct H1 as [_ ->], H2 as [_ ->]. done.
  - destruct H1 as [H1 _], H2 as [H2 _]. rewrite H1 in H2. discriminate.
  - destruct H1 as [H1 _], H2 as [H2 _]. rewrite H1 in H2. discriminate.
  - destruct H1 as (_ & q1 & Hq1 & Hc1 & ->), H2 as (_ & q2 & Hq2 & Hc2 & ->).
    rewrite (envelope_text_inj q1 q2) by congruence. done.
Qed.

Lemma a_updateLast_marker (p : bool) (a : astate) : amarker (a_updateLast p a) = amarker a.
Proof. unfold a_updateLast. by repeat case_match. Qed.

Lemma a_fresh_recompute (a : astate) : a_fresh (a_recompute a).
Proof.
  unfold a_fresh, a_recompute. destruct (a_select (alog a)) eqn:E; simpl; [|congruence].
  rewrite E. congruence.
Qed.

Lemma a_recompute_fresh (a a' : astate) :
  a_fresh a -> alog a' = alog a -> amarker a' = amarker a -> a_recompute a' = a.
Proof.
  destruct a as [l k], a' as [l' k']. intros Hf Hl Hk. simpl in *. subst l' k'.
  unfold a_recompute. simpl.
  destruct (a_select l) as [k'|] eqn:E; [|done]. specialize (Hf k' E). simpl in Hf. by subst.
Qed.

(** The two handlers of the socket hook's events against the abstract
    mutations followed by the recomputation. *)
Lemma on_append_sim (st : state) (a : astate) (m : message) (am : amsg) :
  store_rel (store st) a -> msg_rel m am ->
  exists st', on_append m st = inr st' /\
              store_rel (store st') (a_step a (AAppend am)) /\ a_fresh (a_step a (AAppend am)).
Proof.
  intros Hr Hm. unfold on_append.
  destruct (messages_changed_rel (mk_state (route st) (fetch st) (append m (store st))
                                           (socket st) (scrolls st)) (a_append am a))
    as (st' & H & H'); [by apply append_rel|].
  exists st'. split; [done|split; [done|apply a_fresh_recompute]].
Qed.

Lemma on_update_last_sim (st : state) (a : astate) (q : jstr) :
  store_rel (store st) a -> a_fresh a -> code_units_ok q = true ->
  exists st', on_update_last (envelope_text q) st = inr st' /\
    store_rel (store st') (a_step a (AUpdateLast (negb (bool_decide (q = placeholder))))) /\
    a_fresh (a_step a (AUpdateLast (negb (bool_decide (q = placeholder))))).
Proof.
  intros Hr Hf Hq. unfold on_update_last. cbn [a_step].
  pose proof (updateLast_rel _ _ q Hr Hq) as Hu.
  remember (negb (bool_decide (q = placeholder))) as pr eqn:Hpr. clear Hpr.
  destruct (updateLast_applies (store st)) eqn:Ea.
  - destruct (messages_changed_rel (mk_state (route st) (fetch st)
        (updateLast (envelope_text q) (store st)) (socket st) (scrolls st)) _ Hu)
      as (st' & H & H').
    exists st'. split; [done|]. case_bool_decide as Hc.
    + rewrite (a_recompute_fresh a) in H' by (done || apply a_updateLast_marker). done.
    + split; [done|apply a_fresh_recompute].
  - (* the store does nothing: the abstract update leaves the log too *)
    rewrite updateLast_skip in Hu by done. destruct Hr as [Hl Hk], Hu as [Hu Hku].
    assert (Hlog : alog (a_updateLast pr a) = alog a)
      by (eapply Forall2_functional; [apply msg_rel_functional|exact Hu|exact Hl]).
    exists st. rewrite bool_decide_eq_true_2 by done. done.
Qed.

(** C6. Refinement: on every run of events whose payloads are well formed
    (user messages, and assistant messages or updates whose content is a
    serialized envelope), from a store that stands for an abstract session
    in which the marker is up to date, the component throws nothing, and
    its log and marker stand for the abstract session after the same
    events: append-only with in-place updates of the last message, and
    the marker recomputed after every change of the log (spec sections
    4.2, 4.3 and 9). *)
Theorem run_refines (st : state) (a : astate) (es : list event) (aes : list aevent) :
  store_rel (store st) a -> a_fresh a -> Forall2 event_rel es aes ->
  exists st', run st es = inr st' /\ store_rel (store st') (foldl a_step a aes).
Proof.
  intros Hr Hf Hes. revert st a Hr Hf.
  induction Hes as [|e ae es aes Hev _ IH]; intros st a Hr Hf; [by exists st|].
  assert (Hstep : exists st1, step st e = inr st1 /\ store_rel (store st1) (a_step a ae) /\
                              a_fresh (a_step a ae)).
  { destruct e as [p|req r|m|c|c], ae as [am|pr|]; try contradiction; simpl.
    - case_bool_decide; eauto.
    - eauto.
    - by apply on_append_sim.
    - destruct Hev as (q & Hq & -> & ->). by apply on_update_last_sim.
    - eauto. }
  destruct Hstep as (st1 & Hs & Hr1 & Hf1).
  destruct (IH st1 (a_step a ae) Hr1 Hf1) as (st' & Hrun & Hr').
  exists st'. simpl. by rewrite Hs.
Qed.

(** The abstract counterparts of the session of spec scenarios 5-7. *)
Definition asession : list aevent :=
  [ AAppend (mk_amsg JsUndefined AUser true);
    AAppend (mk_amsg JsUndefined AAssistant false);
    AUpdateLast true ].

Lemma run_refines_witness :
  exists st', run st_mount session = inr st' /\
              store_rel (store st') (foldl a_step (mk_astate [] JsNull) asession).
Proof.
  apply run_refines.
  - split; [vm_compute; constructor|reflexivity].
  - intros k. vm_compute. discriminate.
  - repeat constructor.
    + exists placeholder. split; [vm_compute; reflexivity|split; reflexivity].
    + exists reply. split; [vm_compute; reflexivity|split; reflexivity].
Defined.

End SessionSpec.
