(* ===== verification/ChatSocket.v ===== *)
(** The lifecycle of [useChatSocket(equipment)] (ChatInterface.jsx line
    55) around the component, from its first render to its unmount.  The
    hook's effect depends on [equipment]: React runs the cleanup of the
    previous run (release the connection) before the next run (open one on
    the new equipment), and the cleanup once more when the component
    unmounts.  The listeners the hook registers live on a connection of
    the transport: an event of a connection is delivered while that
    connection is open, to the component while it is mounted and to the
    stores alone after it.  After the unmount React drops the component's
    state updates, so a lookup that settles then is discarded.  An
    exception out of an effect is caught by no error boundary: React
    unmounts the tree, which runs the same cleanups.

    The file states the spec's session lifecycle (4.4, with [Closed]),
    the invariant that at most one connection is open and it is the one
    the socket store holds, attached to the equipment of an [Active]
    session, and the theorems on teardown, on the crash path, on events of
    released connections and on [send]. *)

From S2P Require Import Prelude JsValue Json JsonParse ChatStore SocketStore StreamingSelector EquipmentFetch ChatView ChatInterface.
Import Store Socket StreamingSelector EquipmentFetch ChatView ChatInterface.

Module ChatSocket.

(** ** The lookup phase (spec 4.4) *)

(** The states of the lookup: resolving the target, active, or invalid
    (not found). *)
Inductive aphase : Type := Resolving | Active | Invalid.

(** The phase of the lookup state (lines 18-19 and 57): still loading,
    an equipment, or the falsy equipment of the /404 redirect.  While the
    socket is down the screen shows the same notice for the first two
    ([render_unavailable_iff]), so this is the session's phase, not what
    the user sees. *)
Definition phase_of (f : EquipmentFetch.state) : aphase :=
  if loading f then Resolving
  else if json_truthy (equipment f) then Active else Invalid.

(** One lookup for the session: in flight while loading, settled after. *)
Definition single_lookup (f : EquipmentFetch.state) : Prop :=
  (loading f = true /\ length (pending f) = 1%nat) \/ (loading f = false /\ pending f = []).

(** What a connection delivers to the hook's listeners: a new turn, the
    resolution of the last turn, or a change of the connection state. *)
Inductive inbound : Type :=
  | InMessage (m : message)
  | InUpdate (c : jsval)
  | InStatus (c : conn_status).

(** The component mounted, or unmounted with the stores it leaves. *)
Inductive lstate : Type :=
  | Mounted (st : ChatInterface.state)
  | Unmounted (s : Store.state) (k : Socket.state).

Inductive levent : Type :=
  | LRoute (p : params)                  (** the router's parameters *)
  | LSettle (req : nat) (r : response)   (** a lookup request settles *)
  | LTransport (cid : nat) (i : inbound) (** an event of connection [cid] *)
  | LUnmount.                            (** the component is removed *)

(** The listener's action on the stores, as the component sees it. *)
Definition deliver (i : inbound) : ChatInterface.event :=
  match i with
  | InMessage m => EvAppend m
  | InUpdate c => EvUpdateLast c
  | InStatus c => EvSocketStatus c
  end.

(** The chat store as the listener's action leaves it. *)
Definition store_after (i : inbound) (s : Store.state) : Store.state :=
  match i with
  | InMessage m => append m s
  | InUpdate c => updateLast c s
  | InStatus _ => s
  end.

(** The same action once the component is gone: the stores change and no
    effect of the component runs. *)
Definition store_deliver (i : inbound) (s : Store.state) (k : Socket.state) : lstate :=
  match i with
  | InStatus c => Unmounted s (setStatus c k)
  | _ => Unmounted (store_after i s) k
  end.

Definition lsocket (l : lstate) : Socket.state :=
  match l with
  | Mounted st => socket st
  | Unmounted _ k => k
  end.

(** The listeners of connection [cid] fire while it is open. *)
Definition listening (cid : nat) (k : Socket.state) : bool :=
  bool_decide (cid ∈ open_conns k).

(** The commit after event [e].  When an effect throws, React unmounts
    the tree and runs the cleanups: the hook releases its connection and
    the chat store keeps what the event did to it ([s_crash]). *)
Definition commit (st : ChatInterface.state) (e : ChatInterface.event) (s_crash : Store.state) : lstate :=
  match ChatInterface.step st e with
  | inr st' => Mounted st'
  | inl _ => Unmounted s_crash (disconnect (socket st))
  end.

Definition lstep (l : lstate) (e : levent) : lstate :=
  match l, e with
  | Mounted st, LRoute p => commit st (EvRoute p) (store st)
  | Mounted st, LSettle req r => commit st (EvFetchSettle req r) (store st)
  | Mounted st, LTransport cid i =>
      if listening cid (socket st) then commit st (deliver i) (store_after i (store st)) else l
  | Mounted st, LUnmount =>
      (* the cleanup of line 55's effect; the component's state is dropped *)
      Unmounted (store st) (disconnect (socket st))
  | Unmounted s k, LTransport cid i => if listening cid k then store_deliver i s k else l
  | Unmounted _ _, _ => l
  end.

(** Events in order. *)
Definition lrun : lstate -> list levent -> lstate := foldl lstep.

Definition lroute_change (e : levent) : Prop :=
  match e with LRoute _ => True | _ => False end.

(** One lookup for the session while mounted, as after the first
    render. *)
Definition lsingle (l : lstate) : Prop :=
  match l with
  | Mounted st => single_lookup (fetch st)
  | Unmounted _ _ => True
  end.

(** ** The spec's session lifecycle (4.4) *)

(** The session's phases, with the target of its connection while
    [Active]; [Closed] is the teardown. *)
Inductive lphase : Type :=
  | LResolving
  | LActive (target : json)
  | LInvalid
  | LClosed.

(** Resolving ends in [Active] on a found target or in [Invalid]; every
    phase may be closed; [Active], [Invalid] and [Closed] are not left
    otherwise. *)
Inductive lphase_step : lphase -> lphase -> Prop :=
  | lphase_stay ph : lphase_step ph ph
  | lphase_found t : json_truthy t = true -> lphase_step LResolving (LActive t)
  | lphase_absent : lphase_step LResolving LInvalid
  | lphase_close ph : lphase_step ph LClosed.

(** The phase of a state: the one the component shows while mounted,
    with the equipment as the target. *)
Definition labs (l : lstate) : lphase :=
  match l with
  | Mounted st =>
      match phase_of (fetch st) with
      | Resolving => LResolving
      | Active => LActive (equipment (fetch st))
      | Invalid => LInvalid
      end
  | Unmounted _ _ => LClosed
  end.

(** What each phase says of the connection manager: [Active t] holds
    one open connection, attached to [t]; no other phase holds one. *)
Definition conn_matches (ph : lphase) (k : Socket.state) : Prop :=
  match ph with
  | LActive t => exists c, socket_conn k = Some c /\ open_conns k = [c] /\ attached k = t
  | _ => socket_conn k = None /\ open_conns k = []
  end.

(** The socket store before the first render: no connection held or
    open, nothing attached, not connected, status and flag agreeing. *)
Definition idle (k : Socket.state) : Prop :=
  socket_conn k = None /\ open_conns k = [] /\ attached k = JNull /\
  isConnected k = false /\ consistent k = true.

(** ** The invariant of the lifecycle *)

(** Under one lookup, a settling request is ignored, or it is the
    lookup in flight, which settles and ends the loading state. *)
Lemma settle_single_cases (f : EquipmentFetch.state) (req : nat) (r : response) :
  single_lookup f ->
  settle req r f = f \/
  (loading f = true /\ single_lookup (settle req r f) /\ loading (settle req r f) = false).
Proof.
  intros Hs. unfold settle. case_bool_decide as Hin; [right|by left].
  destruct Hs as [[Hl Hlen]|[Hl Hnil]]; [|rewrite Hnil in Hin; set_solver].
  destruct (pending f) as [|[q u] [|]] eqn:Hp; simpl in Hlen; try discriminate.
  simpl in Hin. apply list_elem_of_singleton in Hin as ->.
  rewrite filter_cons_False by (simpl; congruence). split; [done|split; [by right|done]].
Qed.

(** What a step of the component does to the lookup and the socket. *)
Lemma step_frame (st st' : ChatInterface.state) (e : ChatInterface.event) :
  ChatInterface.step st e = inr st' ->
  match e with
  | EvRoute p =>
      fetch st' = (if bool_decide (p = route st) then fetch st else start_fetch p (fetch st)) /\
      socket st' = socket st
  | EvFetchSettle req r =>
      fetch st' = settle req r (fetch st) /\
      socket st' = if equipment_changed (equipment (fetch st)) (equipment (settle req r (fetch st)))
                   then retarget (equipment (settle req r (fetch st))) (socket st) else socket st
  | EvSocketStatus c => fetch st' = fetch st /\ socket st' = setStatus c (socket st)
  | _ => fetch st' = fetch st /\ socket st' = socket st
  end.
Proof.
  destruct e as [p|req r|m|c|c]; simpl; unfold on_append, on_update_last.
  - case_bool_decide; intros [= <-]; done.
  - by intros [= <-].
  - intros (-> & ->)%messages_changed_socket. done.
  - destruct (updateLast_applies (store st)); [intros (-> & ->)%messages_changed_socket|intros [= <-]]; done.
  - by intros [= <-].
Qed.

Lemma step_fetch_inv (st st' : ChatInterface.state) (e : ChatInterface.event) :
  EquipmentFetch.inv (fetch st) -> ChatInterface.step st e = inr st' ->
  EquipmentFetch.inv (fetch st').
Proof.
  intros Hi Hs. apply step_frame in Hs.
  destruct e as [p|req r|m|c|c]; destruct Hs as [-> _]; try done.
  - case_bool_decide; [done|]. exact (inv_step _ (FetchStart p) Hi).
  - exact (inv_step _ (FetchSettle req r) Hi).
Qed.

(** The socket store's invariants: one connection at most, the one held
    ([conn_inv]); status and flag agreeing ([consistent]); connected only
    while a connection is held ([conn_live]). *)
Definition sock_inv (k : Socket.state) : Prop :=
  conn_inv k /\ consistent k = true /\ conn_live k.

(** A step of the component keeps them, provided a status event comes
    from the connection held, as the listeners ensure. *)
Lemma step_sock_inv (st st' : ChatInterface.state) (e : ChatInterface.event) :
  sock_inv (socket st) ->
  (forall c, e = EvSocketStatus c -> is_Some (socket_conn (socket st))) ->
  ChatInterface.step st e = inr st' -> sock_inv (socket st').
Proof.
  intros (Hc & Hk & Hl) Hev Hs. apply step_frame in Hs.
  destruct e as [p|req r|m|c|c]; destruct Hs as [_ ->]; try done.
  - case_match; [|done]. split; [by apply retarget_conn_inv|split].
    + exact (step_consistent _ (EvRetarget _) Hk).
    + apply retarget_conn_live.
  - split; [done|split; [exact (step_consistent _ (EvStatus c) Hk)|]].
    intros _. by apply (Hev c).
Qed.

(** Mounted: the socket store's invariants, the connection attached to
    the equipment held, and the lookup's invariant; unmounted: no
    connection held or open, and not connected. *)
Definition linv (l : lstate) : Prop :=
  match l with
  | Mounted st => sock_inv (socket st) /\ socket_tracks st /\ EquipmentFetch.inv (fetch st)
  | Unmounted _ k => socket_conn k = None /\ open_conns k = [] /\ isConnected k = false
  end.

(** The cleanup leaves no connection. *)
Lemma released_linv (st : ChatInterface.state) (s : Store.state) :
  linv (Mounted st) -> linv (Unmounted s (disconnect (socket st))).
Proof. intros ((Hc & _) & _). split; [done|split; [by apply disconnect_open|done]]. Qed.

Lemma commit_linv (st : ChatInterface.state) (e : ChatInterface.event) (s : Store.state) :
  linv (Mounted st) -> (forall c, e = EvSocketStatus c -> is_Some (socket_conn (socket st))) ->
  linv (commit st e s).
Proof.
  intros Hl Hev. unfold commit. destruct (ChatInterface.step st e) as [x|st'] eqn:E;
    [by apply released_linv|].
  destruct Hl as (Hs & Ht & Hf).
  split; [by eapply step_sock_inv|split; [by eapply step_socket_tracks|by eapply step_fetch_inv]].
Qed.

(** After the unmount no listener is left: every event is dropped. *)
Lemma lstep_unmounted (s : Store.state) (k : Socket.state) (e : levent) :
  linv (Unmounted s k) -> lstep (Unmounted s k) e = Unmounted s k.
Proof.
  intros (_ & Ho & _). destruct e as [p|req r|cid i|]; simpl; try done.
  unfold listening. rewrite Ho, bool_decide_eq_false_2 by apply not_elem_of_nil. done.
Qed.

(** The listeners of an open connection: it is the one held. *)
Lemma listening_held (cid : nat) (k : Socket.state) :
  conn_inv k -> listening cid k = true -> socket_conn k = Some cid.
Proof.
  intros [Ho _]. unfold listening. rewrite bool_decide_eq_true, Ho.
  destruct (socket_conn k); simpl; [|by intros ?%not_elem_of_nil].
  by intros ->%list_elem_of_singleton.
Qed.

Lemma lstep_linv (l : lstate) (e : levent) : linv l -> linv (lstep l e).
Proof.
  destruct l as [st|s k]; intros Hl; [|by rewrite lstep_unmounted].
  destruct e as [p|req r|cid i|]; cbn [lstep].
  - by apply commit_linv.
  - by apply commit_linv.
  - destruct (listening cid (socket st)) eqn:Hlis; [|done].
    apply commit_linv; [done|]. intros c _.
    destruct Hl as ((Hc & _) & _). by rewrite (listening_held cid _ Hc Hlis).
  - by apply released_linv.
Qed.

Lemma lrun_unmounted (s : Store.state) (k : Socket.state) (es : list levent) :
  linv (Unmounted s k) -> lrun (Unmounted s k) es = Unmounted s k.
Proof.
  intros H. induction es as [|e es IH]; [done|].
  unfold lrun in *. cbn [foldl]. rewrite lstep_unmounted by done. exact IH.
Qed.

Lemma conn_inv_detached (k : Socket.state) :
  conn_inv k -> attached k = JNull -> socket_conn k = None /\ open_conns k = [].
Proof. intros [Ho Hn] Ha. apply Hn in Ha. rewrite Ho, Ha. done. Qed.

Lemma conn_inv_attached (k : Socket.state) :
  conn_inv k -> attached k <> JNull -> exists c, socket_conn k = Some c /\ open_conns k = [c].
Proof.
  intros [Ho Hn] Ha. destruct (socket_conn k) as [c|] eqn:Hc; [|by destruct Ha; apply Hn].
  exists c. by rewrite Ho.
Qed.

Lemma linv_conn_matches (l : lstate) : linv l -> conn_matches (labs l) (lsocket l).
Proof.
  destruct l as [st|s k]; [|by intros (? & ? & _)]. intros ((Hc & _) & Ht & (_ & _ & Hload)).
  unfold socket_tracks in Ht. simpl. unfold phase_of.
  destruct (loading (fetch st)) eqn:El.
  - rewrite Hload in Ht by done. by apply conn_inv_detached.
  - destruct (json_truthy (equipment (fetch st))) eqn:Et; [|by apply conn_inv_detached].
    destruct (conn_inv_attached (socket st)) as (c & Hs & Ho);
      [done|rewrite Ht; intros Heq; by rewrite Heq in Et|].
    by exists c.
Qed.

(** ** The phase along a run *)

Lemma labs_fetch (st st' : ChatInterface.state) :
  fetch st' = fetch st -> labs (Mounted st') = labs (Mounted st).
Proof. intros H. simpl. by rewrite H. Qed.

Lemma labs_resolved (st st' : ChatInterface.state) :
  loading (fetch st) = true -> loading (fetch st') = false ->
  lphase_step (labs (Mounted st)) (labs (Mounted st')).
Proof.
  intros Hl Hl'. simpl. unfold phase_of. rewrite Hl, Hl'.
  destruct (json_truthy _) eqn:E; constructor; done.
Qed.

(** A commit moves the phase as the step of the component does, or
    closes the session when an effect throws. *)
Lemma commit_phase (st : ChatInterface.state) (e : ChatInterface.event) (s : Store.state) :
  (forall st', ChatInterface.step st e = inr st' ->
     lsingle (Mounted st') /\ lphase_step (labs (Mounted st)) (labs (Mounted st'))) ->
  lsingle (commit st e s) /\ lphase_step (labs (Mounted st)) (labs (commit st e s)).
Proof.
  intros H. unfold commit. destruct (ChatInterface.step st e) as [x|st'] eqn:E; [|by apply H].
  split; [done|constructor].
Qed.

Lemma lstep_phase (l : lstate) (e : levent) :
  lsingle l -> ~ lroute_change e -> lsingle (lstep l e) /\ lphase_step (labs l) (labs (lstep l e)).
Proof.
  intros Hs Hr. destruct l as [st|s k].
  - destruct e as [p|req r|cid i|]; cbn [lstep]; [by destruct Hr| |case_match|];
      [apply commit_phase; intros st1 E..|split; [done|constructor]|split; [done|constructor]].
    + apply step_frame in E as [Hf _]. simpl in Hs.
      destruct (settle_single_cases (fetch st) req r Hs) as [Heq|(Hl & Hs' & Hl')].
      * rewrite Heq in Hf. rewrite (labs_fetch st st1 Hf).
        split; [simpl; by rewrite Hf|constructor].
      * split; [simpl; by rewrite Hf|]. apply labs_resolved; [done|by rewrite Hf].
    + apply step_frame in E.
      assert (Hf : fetch st1 = fetch st) by (destruct i; apply E).
      rewrite (labs_fetch st st1 Hf). simpl. rewrite Hf. split; [done|constructor].
  - destruct e as [p|req r|cid i|]; cbn [lstep]; [..|destruct (listening cid k); [destruct i|]|];
      split; constructor.
Qed.

(** C30. Refinement of the session lifecycle of spec 4.4, teardown
    included: from a state with one lookup for the session, along every
    run of events that does not change the route, the phase moves as the
    spec's machine does: [Resolving] becomes [Active] on a truthy
    equipment, which stays its target, or [Invalid]; every phase ends in
    [Closed] at the unmount or when an effect throws, and [Closed] is
    never left. *)
Theorem lifecycle_refines (l : lstate) (es : list levent) :
  lsingle l -> Forall (fun e => ~ lroute_change e) es ->
  rtc lphase_step (labs l) (labs (lrun l es)).
Proof.
  intros Hs Hes.
  exact (proj2 (foldl_sim lstep lsingle (fun e => ~ lroute_change e) labs lphase_step
                  (fun l e Hl He => lstep_phase l e Hl He) l es Hs Hes)).
Qed.

(** C31. Spec 4.4 asks a change of target to re-enter [Resolving] and to
    release the prior connection first; the code does neither: on a new
    route the component keeps its phase and its equipment, and the
    socket store keeps the connection to the previous target open, whose
    events still reach the new route's log until the new lookup settles
    with a different equipment. *)
Theorem route_change_keeps_connection (st : ChatInterface.state) (p : params) (cid : nat) (i : inbound) :
  p <> route st -> cid ∈ open_conns (socket st) ->
  exists st', lstep (Mounted st) (LRoute p) = Mounted st' /\
    route st' = p /\ socket st' = socket st /\ labs (Mounted st') = labs (Mounted st) /\
    lstep (Mounted st') (LTransport cid i) = commit st' (deliver i) (store_after i (store st')).
Proof.
  intros Hp Hc. eexists. split.
  { cbn [lstep]. unfold commit. cbn [ChatInterface.step]. by rewrite bool_decide_eq_false_2. }
  split; [done|split; [done|split]].
  - simpl. unfold phase_of. done.
  - cbn [lstep socket]. unfold listening. by rewrite bool_decide_eq_true_2.
Qed.

Section Lifecycle.
(** The route of the first render and the stores as the component finds
    them, the socket store idle. *)
Variable p0 : params.
Variable store0 : Store.state.
Variable socket0 : Socket.state.
Hypothesis socket0_idle : idle socket0.

Inductive lreachable : lstate -> Prop :=
  | lreachable_mount st : mount p0 store0 socket0 = inr st -> lreachable (Mounted st)
  | lreachable_step l e : lreachable l -> lreachable (lstep l e).

Lemma lreachable_lrun (l : lstate) (es : list levent) :
  lreachable l -> lreachable (lrun l es).
Proof.
  intros Hl.
  refine (proj1 (foldl_sim lstep lreachable (fun _ => True) (fun _ => tt) (fun _ _ => True)
                   _ l es Hl _)).
  - intros s e Hs _. split; [by apply lreachable_step|done].
  - by apply Forall_true.
Qed.

Lemma mount_linv (st : ChatInterface.state) : mount p0 store0 socket0 = inr st -> linv (Mounted st).
Proof using socket0_idle.
  destruct socket0_idle as (Hn & Ho & Ha & Hi & Hk).
  unfold mount. intros [Hs Hf]%messages_changed_socket.
  cbn [linv]. unfold socket_tracks. rewrite Hs, Hf. simpl.
  split; [split; [split; [by rewrite Ho, Hn|by rewrite Hn, Ha]|split; [done|intros H; congruence]]|split].
  - by rewrite Ha.
  - exact (inv_step _ (FetchStart p0) inv_initial).
Qed.

Lemma lreachable_linv (l : lstate) : lreachable l -> linv l.
Proof using socket0_idle.
  induction 1 as [st Hm|l e _ IH]; [by apply mount_linv|by apply lstep_linv].
Qed.

(** C27. Spec 4.1 and 4.4, no overlap: in every state reachable from the
    first render, through route changes, lookups settling in any order,
    events of the transport's connections, crashes and the unmount, the
    connection manager holds what the session's phase says: while
    [Active] on a target exactly one connection is open, the one the
    socket store holds, attached to that target; while resolving, on
    not-found and after the teardown no connection is open or held. *)
Theorem reachable_conn_matches_phase (l : lstate) :
  lreachable l -> conn_matches (labs l) (lsocket l).
Proof using socket0_idle. intros Hl. by apply linv_conn_matches, lreachable_linv. Qed.

(** C28. Spec 4.1 ([disconnect] on every exit path), 5 and property 4 of
    section 8: from every reachable mounted state, the unmount leaves no
    connection open or held and the socket store disconnected, and
    nothing after it (a lookup settling late, an event of any
    connection, a route change) changes the chat log or the socket store
    the component left. *)
Theorem teardown_releases (st : ChatInterface.state) (es : list levent) :
  lreachable (Mounted st) ->
  exists k, lrun (Mounted st) (LUnmount :: es) = Unmounted (store st) k /\
            socket_conn k = None /\ open_conns k = [] /\
            connectionStatus k = Disconnected /\ isConnected k = false.
Proof using socket0_idle.
  intros Hl. pose proof (released_linv st (store st) (lreachable_linv _ Hl)) as Hu.
  exists (disconnect (socket st)). split; [|by destruct Hu as (? & ? & _)].
  exact (lrun_unmounted _ _ es Hu).
Qed.

(** C29. Spec 4.4 (release before attach) and 5: in every reachable state
    an event of a connection other than the one the socket store holds,
    one released by an earlier change of equipment, by a crash or by the
    unmount, is dropped: the log, the marker, the connection state and
    the component are unchanged. *)
Theorem stale_connection_dropped (l : lstate) (cid : nat) (i : inbound) :
  lreachable l -> socket_conn (lsocket l) <> Some cid -> lstep l (LTransport cid i) = l.
Proof using socket0_idle.
  intros Hl Hne. pose proof (lreachable_linv l Hl) as Hi.
  destruct l as [st|s k]; [|by apply lstep_unmounted].
  destruct Hi as ((Hc & _) & _). cbn [lstep].
  destruct (listening cid (socket st)) eqn:Hlis; [|done].
  by apply (listening_held cid _ Hc) in Hlis.
Qed.

(** C32. Spec 4.1 and 7 ([SendRejected]): in every reachable state, a
    [send] is delivered only while the store reads [connected], and then
    the session is [Active]: one connection is open, the one the store
    holds, attached to the session's target. *)
Theorem send_only_when_active (l : lstate) (t : jstr) :
  lreachable l -> fst (send t (lsocket l)) = true ->
  connectionStatus (lsocket l) = Connected /\
  exists c, socket_conn (lsocket l) = Some c /\ open_conns (lsocket l) = [c] /\
            labs l = LActive (attached (lsocket l)).
Proof using socket0_idle.
  intros Hl Hsend. pose proof (lreachable_linv l Hl) as Hi. pose proof (linv_conn_matches l Hi) as Hm.
  unfold send in Hsend. destruct (isConnected (lsocket l)) eqn:Hc; [|discriminate].
  destruct l as [st|s k]; [|destruct Hi as (_ & _ & Hf); simpl in Hc; congruence].
  destruct Hi as ((Hci & Hk & Hlive) & _). cbn [lsocket] in *. split.
  - unfold consistent in Hk. rewrite Hc in Hk. by case_bool_decide.
  - destruct (Hlive Hc) as [c Hsc].
    destruct (labs (Mounted st)) eqn:Eph; cbn [conn_matches] in Hm;
      try (destruct Hm as [Hn _]; congruence).
    destruct Hm as (c' & Hs' & Ho & Ha). exists c'. by rewrite Ha.
Qed.

(** C33. Spec 7 says a malformed payload must not end the session; the
    code lets [SyntaxError] escape the effect of lines 42-53, which
    unmounts the tree.  The teardown still releases the connection: from
    every reachable mounted state, an assistant message that is not JSON
    text, arriving on the open connection, closes the session with the
    message in the log and no connection open or held. *)
Theorem unparsable_reply_tears_down (st : ChatInterface.state) (cid : nat) (m : message) :
  lreachable (Mounted st) -> cid ∈ open_conns (socket st) ->
  js_strict_eq (msg_role m) role_assistant = true ->
  (forall j, JSON_parse (msg_content m) <> inr j) ->
  exists k, lstep (Mounted st) (LTransport cid (InMessage m)) = Unmounted (append m (store st)) k /\
            socket_conn k = None /\ open_conns k = [] /\ isConnected k = false.
Proof using socket0_idle.
  intros Hl Hc Hrole Hp. pose proof (released_linv st (append m (store st)) (lreachable_linv _ Hl)) as Hu.
  exists (disconnect (socket st)). split; [|exact Hu].
  cbn [lstep]. unfold listening. rewrite bool_decide_eq_true_2 by done.
  unfold commit. cbn [deliver]. by rewrite on_append_unparsable.
Qed.
(** C34. Spec 4.4 (a connection drop does not end the session) and
    property 8 of section 8: in every reachable [Active] state, when the
    connection the store holds reports [disconnected], the session stays
    [Active] on that connection, the component shows the unavailable
    notice and a [send] is rejected; once the same connection reports
    [connected] again, the notice is gone and a [send] is delivered. *)
Theorem drop_and_reconnect (st : ChatInterface.state) (tgt : json) (c : nat) (t : jstr) :
  lreachable (Mounted st) -> labs (Mounted st) = LActive tgt -> socket_conn (socket st) = Some c ->
  exists st1 st2,
    lstep (Mounted st) (LTransport c (InStatus Disconnected)) = Mounted st1 /\
    lstep (Mounted st1) (LTransport c (InStatus Connected)) = Mounted st2 /\
    labs (Mounted st1) = LActive tgt /\ labs (Mounted st2) = LActive tgt /\
    socket_conn (socket st2) = Some c /\
    view st1 = Unavailable /\ fst (send t (socket st1)) = false /\
    view st2 <> Unavailable /\ fst (send t (socket st2)) = true.
Proof using socket0_idle.
  intros Hl Hact Hc. destruct (lreachable_linv _ Hl) as (((Ho & _) & _) & _).
  assert (Hlis : forall k, open_conns k = open_conns (socket st) -> listening c k = true).
  { intros k Hk. unfold listening. rewrite Hk, Ho, Hc. by apply bool_decide_eq_true_2, list_elem_of_singleton. }
  simpl in Hact. unfold phase_of in Hact.
  destruct (loading (fetch st)) eqn:El; [discriminate|].
  destruct (json_truthy (equipment (fetch st))) eqn:Et; [|discriminate].
  set (st1 := ChatInterface.mk_state (route st) (fetch st) (store st) (setStatus Disconnected (socket st)) (scrolls st)).
  set (st2 := ChatInterface.mk_state (route st) (fetch st) (store st) (setStatus Connected (socket st1)) (scrolls st)).
  exists st1, st2. cbn [lstep]. rewrite !Hlis by done. unfold commit. cbn [deliver ChatInterface.step].
  unfold view, render. simpl. rewrite El, Et, Hc. simpl. unfold phase_of. rewrite El, Et.
  repeat split; try done. by case_match.
Qed.
End Lifecycle.

(** ** Witnesses: one session from the first render to the unmount *)

Definition mounted_of (d : ChatInterface.state) (l : lstate) : ChatInterface.state :=
  match l with Mounted st => st | _ => d end.

(** The socket store before the first render. *)
Definition socket_idle : Socket.state := Socket.mk_state false Disconnected JNull [] None [] 0.

Lemma socket_idle_idle : idle socket_idle.
Proof. repeat split. Qed.

Definition l_mount : lstate := Mounted (from_inr st_mount (mount route0 Store.initial socket_idle)).

(** The lookup finds the pump, connection 0 opens, and spec scenarios
    5-7 arrive on it. *)
Definition l_session : list levent :=
  [ LSettle 0 (Fulfilled (JObj pump)); LTransport 0 (InStatus Connected);
    LTransport 0 (InMessage msg_user_hello); LTransport 0 (InMessage (msg_assistant placeholder));
    LTransport 0 (InUpdate (envelope_text reply)) ].

Definition st_active : ChatInterface.state := mounted_of st_mount (lrun l_mount l_session).

(** The route moves to the valve and its lookup settles: connection 0 is
    released and connection 1 opened. *)
Definition l_switch : list levent :=
  [LRoute route1; LSettle 1 (Fulfilled (JObj [(js_of_string "name", JStr (js_of_string "valve"))]))].

Definition st_switched : ChatInterface.state := mounted_of st_mount (lrun (Mounted st_active) l_switch).

Lemma l_mount_reachable : lreachable route0 Store.initial socket_idle l_mount.
Proof. apply lreachable_mount. vm_compute. reflexivity. Qed.

Lemma st_active_reachable : lreachable route0 Store.initial socket_idle (Mounted st_active).
Proof.
  replace (Mounted st_active) with (lrun l_mount l_session) by (vm_compute; reflexivity).
  apply lreachable_lrun, l_mount_reachable.
Qed.

Lemma st_switched_reachable : lreachable route0 Store.initial socket_idle (Mounted st_switched).
Proof.
  replace (Mounted st_switched) with (lrun (Mounted st_active) l_switch) by (vm_compute; reflexivity).
  apply lreachable_lrun, st_active_reachable.
Qed.

Lemma reachable_conn_matches_phase_witness :
  conn_matches (labs (Mounted st_switched)) (lsocket (Mounted st_switched)).
Proof.
  apply (reachable_conn_matches_phase route0 Store.initial socket_idle socket_idle_idle
           (Mounted st_switched) st_switched_reachable).
Defined.

(** The unmount after the session; the valve's lookup settles late and
    a message arrives on the released connection 0. *)
Lemma teardown_releases_witness :
  exists k, lrun (Mounted st_active) (LUnmount :: [LSettle 1 Rejected; LTransport 0 (InMessage msg_user_hello)])
            = Unmounted (store st_active) k /\
            socket_conn k = None /\ open_conns k = [] /\
            connectionStatus k = Disconnected /\ isConnected k = false.
Proof.
  apply (teardown_releases route0 Store.initial socket_idle socket_idle_idle).
  exact st_active_reachable.
Defined.

(** The route moves to the valve while the pump's connection 0 is open. *)
Lemma route_change_keeps_connection_witness :
  exists st', lstep (Mounted st_active) (LRoute route1) = Mounted st' /\
    route st' = route1 /\ socket st' = socket st_active /\ labs (Mounted st') = labs (Mounted st_active) /\
    lstep (Mounted st') (LTransport 0 (InMessage msg_user_hello)) =
      commit st' (deliver (InMessage msg_user_hello)) (store_after (InMessage msg_user_hello) (store st')).
Proof. apply route_change_keeps_connection; vm_compute; [discriminate|left]. Defined.

(** After the switch, a message on connection 0 is dropped. *)
Lemma stale_connection_dropped_witness :
  lstep (Mounted st_switched) (LTransport 0 (InMessage msg_user_hello)) = Mounted st_switched.
Proof.
  apply (stale_connection_dropped route0 Store.initial socket_idle socket_idle_idle
           (Mounted st_switched) 0 _ st_switched_reachable).
  vm_compute. congruence.
Defined.

Lemma lifecycle_refines_witness :
  rtc lphase_step (labs l_mount) (labs (lrun l_mount (l_session ++ [LUnmount]))).
Proof.
  apply lifecycle_refines.
  - left. split; reflexivity.
  - repeat constructor; intros [].
Defined.

(** In the session, connection 0 is connected: a send goes through. *)
Lemma send_only_when_active_witness :
  connectionStatus (socket st_active) = Connected /\
  exists c, socket_conn (socket st_active) = Some c /\ open_conns (socket st_active) = [c] /\
            labs (Mounted st_active) = LActive (attached (socket st_active)).
Proof.
  apply (send_only_when_active route0 Store.initial socket_idle socket_idle_idle
           (Mounted st_active) (js_of_string "thanks") st_active_reachable).
  vm_compute. reflexivity.
Defined.

(** Connection 0 drops and comes back during the pump's session. *)
Lemma drop_and_reconnect_witness :
  exists st1 st2,
    lstep (Mounted st_active) (LTransport 0 (InStatus Disconnected)) = Mounted st1 /\
    lstep (Mounted st1) (LTransport 0 (InStatus Connected)) = Mounted st2 /\
    labs (Mounted st1) = LActive (JObj pump) /\ labs (Mounted st2) = LActive (JObj pump) /\
    socket_conn (socket st2) = Some 0%nat /\
    view st1 = Unavailable /\ fst (send (js_of_string "thanks") (socket st1)) = false /\
    view st2 <> Unavailable /\ fst (send (js_of_string "thanks") (socket st2)) = true.
Proof.
  apply (drop_and_reconnect route0 Store.initial socket_idle socket_idle_idle st_active (JObj pump));
    [exact st_active_reachable|vm_compute; reflexivity|vm_compute; reflexivity].
Defined.

(** A reply that is plain text, not a JSON envelope, on connection 0. *)
Lemma unparsable_reply_tears_down_witness :
  exists k, lstep (Mounted st_active) (LTransport 0 (InMessage (Store.mk_message JsUndefined role_assistant (JsString reply))))
            = Unmounted (append (Store.mk_message JsUndefined role_assistant (JsString reply)) (store st_active)) k /\
            socket_conn k = None /\ open_conns k = [] /\ isConnected k = false.
Proof.
  apply (unparsable_reply_tears_down route0 Store.initial socket_idle socket_idle_idle);
    [exact st_active_reachable|vm_compute; left|reflexivity|intros j; vm_compute; discriminate].
Defined.
End ChatSocket.
